(** * Bulk minute-bar download pipeline: date chunking, per-ticker download
      task, progress store and retry wrapper.

    Shallow embedding of
    - [src/get_1min_data_polygon.py] (class [PolygonDataDownloader]), and
    - [src/data_loading/ohlc_data_loader.py] (the FX month loader),
    followed by the properties of the specification that concern them. *)

From Stdlib Require Import ZArith QArith Lia Lqa List String Ascii Bool.
From stdpp Require Import base gmap sets list strings sorting.

Local Open Scope Z_scope.
#[local] Set Warnings "-clear-no-such-hyp".

(** ** Python exceptions and results *)

(** The exception classes that the modelled code can raise or let through.
    [HTTPError] carries the status code of the response it was raised for.
    [OutOfFuel] is not a Python exception: it is what a loop of the model
    answers when its iteration budget is used up. The budgets given to the
    two chunk loops are enough, see [chunk_loop_tiles] and
    [month_loop_tiles]. *)
Inductive exn : Type :=
| ValueError
| OverflowError
| OSError
| HTTPError (status : Z)
| ConnectionError
| OutOfFuel.

Inductive result (A : Type) : Type :=
| Ok (a : A)
| Raise (e : exn).
Arguments Ok {A} a.
Arguments Raise {A} e.

Definition rbind {A B : Type} (r : result A) (k : A -> result B) : result B :=
  match r with
  | Ok a => k a
  | Raise e => Raise e
  end.

Notation "x <-! r ; k" := (rbind r (fun x => k))
  (at level 100, r at next level, right associativity).

(** ** Calendar arithmetic of [datetime] *)

Module Calendar.

(** A [datetime] at midnight: [strptime(.., "%Y-%m-%d")] and
    [fromisoformat] of a date leave the time fields at zero. *)
Record datetime : Type := mkdate { year : Z; month : Z; day : Z }.

Definition MINYEAR : Z := 1.
Definition MAXYEAR : Z := 9999.

Definition is_leap (y : Z) : bool :=
  (y mod 4 =? 0) && (negb (y mod 100 =? 0) || (y mod 400 =? 0)).

(** [_DAYS_IN_MONTH = [-1, 31, 28, 31, ...]] *)
Definition DAYS_IN_MONTH (m : Z) : Z :=
  match m with
  | 1 => 31 | 2 => 28 | 3 => 31 | 4 => 30 | 5 => 31 | 6 => 30
  | 7 => 31 | 8 => 31 | 9 => 30 | 10 => 31 | 11 => 30 | 12 => 31
  | _ => -1
  end.

(** [_DAYS_BEFORE_MONTH]: days of the year before the first of month [m]. *)
Definition DAYS_BEFORE_MONTH (m : Z) : Z :=
  match m with
  | 1 => 0 | 2 => 31 | 3 => 59 | 4 => 90 | 5 => 120 | 6 => 151
  | 7 => 181 | 8 => 212 | 9 => 243 | 10 => 273 | 11 => 304 | 12 => 334
  | _ => -1
  end.

Definition days_before_year (y : Z) : Z :=
  let y := y - 1 in y * 365 + y / 4 - y / 100 + y / 400.

Definition days_in_month (y m : Z) : Z :=
  if (m =? 2) && is_leap y then 29 else DAYS_IN_MONTH m.

Definition days_before_month (y m : Z) : Z :=
  DAYS_BEFORE_MONTH m + (if (2 <? m) && is_leap y then 1 else 0).

Definition ymd2ord (y m d : Z) : Z :=
  days_before_year y + days_before_month y m + d.

Definition DI400Y : Z := 146097.
Definition DI100Y : Z := 36524.
Definition DI4Y : Z := 1461.

(** [_ord2ymd]: ordinal to (year, month, day), 1 being 0001-01-01. *)
Definition ord2ymd (n : Z) : datetime :=
  let n := n - 1 in
  let n400 := n / DI400Y in
  let n := n mod DI400Y in
  let year := n400 * 400 + 1 in
  let n100 := n / DI100Y in
  let n := n mod DI100Y in
  let n4 := n / DI4Y in
  let n := n mod DI4Y in
  let n1 := n / 365 in
  let n := n mod 365 in
  let year := year + n100 * 100 + n4 * 4 + n1 in
  if (n1 =? 4) || (n100 =? 4) then mkdate (year - 1) 12 31
  else
    let leapyear := (n1 =? 3) && (negb (n4 =? 24) || (n100 =? 3)) in
    let month := Z.shiftr (n + 50) 5 in
    let preceding :=
      DAYS_BEFORE_MONTH month + (if (2 <? month) && leapyear then 1 else 0) in
    if n <? preceding then
      let month := month - 1 in
      let preceding :=
        preceding
        - (DAYS_IN_MONTH month + (if (month =? 2) && leapyear then 1 else 0)) in
      mkdate year month (n - preceding + 1)
    else mkdate year month (n - preceding + 1).

Definition MAXORDINAL : Z := 3652059.

(** The dates a [datetime] object can hold. *)
Definition valid_date (d : datetime) : bool :=
  (MINYEAR <=? year d) && (year d <=? MAXYEAR)
  && (1 <=? month d) && (month d <=? 12)
  && (1 <=? day d) && (day d <=? days_in_month (year d) (month d)).

Definition toordinal (d : datetime) : Z := ymd2ord (year d) (month d) (day d).

Definition fromordinal (n : Z) : result datetime :=
  if (0 <? n) && (n <=? MAXORDINAL) then Ok (ord2ymd n) else Raise OverflowError.

(** [d + timedelta(days=k)] *)
Definition add_days (d : datetime) (k : Z) : result datetime :=
  fromordinal (toordinal d + k).

(** Comparison of datetimes is the comparison of their field tuples. *)
Definition dt_ltb (a b : datetime) : bool :=
  (year a <? year b)
  || ((year a =? year b)
      && ((month a <? month b) || ((month a =? month b) && (day a <? day b)))).

Definition dt_leb (a b : datetime) : bool := negb (dt_ltb b a).

(** [min(a, b)] and [max(a, b)]: the first argument wins a tie. *)
Definition dt_min (a b : datetime) : datetime := if dt_ltb b a then b else a.
Definition dt_max (a b : datetime) : datetime := if dt_ltb a b then b else a.

(** [dt + relativedelta(months=1)]: the month is bumped, the day clipped to
    the length of the new month, and [replace] refuses a year past
    [MAXYEAR]. *)
Definition add_month (d : datetime) : result datetime :=
  let m := month d + 1 in
  let '(y, m) := if 12 <? m then (year d + 1, m - 12) else (year d, m) in
  let dd := Z.min (days_in_month y m) (day d) in
  if (MINYEAR <=? y) && (y <=? MAXYEAR) then Ok (mkdate y m dd)
  else Raise ValueError.

End Calendar.

Import Calendar.

(** ** Text form of dates: ["%Y-%m-%d"] *)

Module DateText.

Definition digit_of_ascii (c : ascii) : option Z :=
  let n := Z.of_nat (nat_of_ascii c) in
  if (48 <=? n) && (n <=? 57) then Some (n - 48) else None.

Definition ascii_of_digit (z : Z) : ascii :=
  ascii_of_nat (Z.to_nat (48 + z mod 10)).

Definition two_digits (a b : ascii) : option Z :=
  match digit_of_ascii a, digit_of_ascii b with
  | Some x, Some y => Some (10 * x + y)
  | _, _ => None
  end.

Definition four_digits (a b c d : ascii) : option Z :=
  match two_digits a b, two_digits c d with
  | Some x, Some y => Some (100 * x + y)
  | _, _ => None
  end.

(** [datetime.strptime(s, "%Y-%m-%d")] and [datetime.fromisoformat(s)] on
    the zero-padded ten-character form [YYYY-MM-DD], the form that the
    callers pass and that [strftime] and [isoformat] print. Any other text,
    and a text that names no calendar day, is a [ValueError]. *)
Definition strptime (s : string) : result datetime :=
  match s with
  | String y1 (String y2 (String y3 (String y4 (String "-"
      (String m1 (String m2 (String "-" (String d1 (String d2 EmptyString))))))))) =>
      match four_digits y1 y2 y3 y4, two_digits m1 m2, two_digits d1 d2 with
      | Some y, Some m, Some d =>
          if valid_date (mkdate y m d) then Ok (mkdate y m d) else Raise ValueError
      | _, _, _ => Raise ValueError
      end
  | _ => Raise ValueError
  end.

Definition pad2 (z : Z) : string :=
  String (ascii_of_digit (z / 10)) (String (ascii_of_digit z) EmptyString).

Definition pad4 (z : Z) : string :=
  String (ascii_of_digit (z / 1000)) (String (ascii_of_digit (z / 100))
    (String (ascii_of_digit (z / 10)) (String (ascii_of_digit z) EmptyString))).

(** [d.strftime("%Y-%m-%d")] and [d.date().isoformat()], with the year
    printed on four digits. *)
Definition strftime (d : datetime) : string :=
  (pad4 (year d) ++ "-" ++ pad2 (month d) ++ "-" ++ pad2 (day d))%string.

End DateText.

Import DateText.

(** ** The two date-range chunkers *)

(** A chunk as the code hands it on: a pair of date texts, both inclusive. *)
Definition chunk : Type := (string * string)%type.

(** The [timedelta(days=45)] of [generate_date_chunks]. *)
Definition CHUNK_DAYS : Z := 45.

(** The [while current < end] loop of [generate_date_chunks]; [chunks] is
    the list being appended to. *)
Fixpoint chunk_loop (fuel : nat) (current end_ : datetime) (chunks : list chunk)
  : result (list chunk) :=
  if dt_ltb current end_ then
    match fuel with
    | O => Raise OutOfFuel
    | S fuel' =>
        stepped <-! add_days current CHUNK_DAYS;
        let chunk_end := dt_min stepped end_ in
        let chunks := chunks ++ [(strftime current, strftime chunk_end)] in
        current' <-! add_days chunk_end 1;
        chunk_loop fuel' current' end_ chunks
    end
  else Ok chunks.

(** Every iteration moves [current] forward by at least one day, so the
    number of days between the two ends bounds the number of iterations. *)
Definition chunk_fuel (start end_ : datetime) : nat :=
  Z.to_nat (toordinal end_ - toordinal start).

(** [PolygonDataDownloader.generate_date_chunks] *)
Definition generate_date_chunks (start_date end_date : string) : result (list chunk) :=
  start <-! strptime start_date;
  end_ <-! strptime end_date;
  chunk_loop (chunk_fuel start end_) start end_ [].

(** How a generator stops: it is exhausted, or its body raised. *)
Inductive gen_end : Type :=
| StopIteration
| GenRaise (e : exn).

(** The [while cur <= e] loop of [month_chunks]; the chunks are returned in
    the order in which they are yielded. *)
Fixpoint month_loop (fuel : nat) (cur s e : datetime) : list chunk * gen_end :=
  if dt_leb cur e then
    match fuel with
    | O => ([], GenRaise OutOfFuel)
    | S fuel' =>
        match add_month cur with
        | Raise x => ([], GenRaise x)
        | Ok following =>
            match add_days following (-1) with
            | Raise x => ([], GenRaise x)
            | Ok nxt =>
                let start := strftime (dt_max cur s) in
                let end_ := strftime (dt_min nxt e) in
                let '(rest, fin) := month_loop fuel' following s e in
                ((start, end_) :: rest, fin)
            end
        end
    end
  else ([], StopIteration).

(** One iteration per calendar month from the month of [s] to that of [e]. *)
Definition month_fuel (s e : datetime) : nat :=
  Z.to_nat (12 * (year e - year s) + (month e - month s) + 1).

(** [month_chunks] of the FX loader. *)
Definition month_chunks (start_yyyymmdd end_yyyymmdd : string) : list chunk * gen_end :=
  match strptime start_yyyymmdd with
  | Raise x => ([], GenRaise x)
  | Ok s =>
      match strptime end_yyyymmdd with
      | Raise x => ([], GenRaise x)
      | Ok e => month_loop (month_fuel s e) (mkdate (year s) (month s) 1) s e
      end
  end.

(** ** Bars, HTTP replies and the world of the equity downloader *)

(** One row of the frame built from a reply: the columns kept by
    [df[['timestamp', 'open', 'high', 'low', 'close', 'volume']]]. The
    timestamp is the bar's start in milliseconds; the other columns are
    JSON numbers that the code only moves around and compares for equality,
    kept here as integers (ticks). *)
Record Bar : Type := mkBar {
  timestamp : Z;
  open : Z;
  high : Z;
  low : Z;
  close : Z;
  volume : Z
}.

Global Instance Bar_eq_dec : EqDecision Bar.
Proof. solve_decision. Defined.

(** The body of a reply. [Unparsable] is a body on which [response.json()]
    or the construction of the frame raises; [Json r] is a JSON object
    whose ['results'] entry is absent ([None]) or holds the rows [r]. *)
Inductive Body : Type :=
| Unparsable
| Json (results : option (list Bar)).

(** What [requests.get] does: it returns a response, or it raises (time-out,
    connection reset). *)
Inductive Reply : Type :=
| Response (status_code : Z) (body : Body)
| Failed (e : exn).

(** The request for one chunk of one ticker: the variable parts of
    [/v2/aggs/ticker/{ticker}/range/1/minute/{chunk_start}/{chunk_end}]. *)
Record Request : Type := mkRequest {
  req_ticker : string;
  req_from : string;
  req_to : string
}.

Global Instance Request_eq_dec : EqDecision Request.
Proof. solve_decision. Defined.

Record Stats : Type := mkStats {
  total_api_calls : Z;
  successful_calls : Z;
  failed_calls : Z;
  total_data_points : Z
}.

(** The progress file [download_progress.json]: missing, unreadable, or
    holding the completed tickers and the statistics of its last writer. *)
Inductive ProgressFile : Type :=
| Absent
| Malformed
| Stored (completed : gset string) (file_stats : Stats).

(** What is outside the downloader and does not change during a run: the
    remote service, answering a request by its content and by the number of
    times the same request was sent before, and whether the two kinds of
    file can be written. *)
Record Env : Type := mkEnv {
  server : Request -> nat -> Reply;
  csv_writable : string -> bool;
  progress_writable : bool
}.

(** The downloader object ([completed_tickers], [stats]) together with the
    part of the world it acts on: the requests sent so far (oldest first),
    the seconds spent in [time.sleep], the files [{ticker}_1min.csv] of the
    data folder (keyed by ticker) and the progress file. *)
Record State : Type := mkState {
  completed_tickers : gset string;
  stats : Stats;
  sent : list Request;
  slept : Z;
  csv_files : gmap string (list Bar);
  progress_file : ProgressFile
}.

Definition set_stats (f : Stats -> Stats) (st : State) : State :=
  mkState (completed_tickers st) (f (stats st)) (sent st) (slept st)
          (csv_files st) (progress_file st).

Definition api_call (s : Stats) : Stats :=
  mkStats (total_api_calls s + 1) (successful_calls s) (failed_calls s)
          (total_data_points s).

Definition call_succeeded (s : Stats) : Stats :=
  mkStats (total_api_calls s) (successful_calls s + 1) (failed_calls s)
          (total_data_points s).

Definition call_failed (s : Stats) : Stats :=
  mkStats (total_api_calls s) (successful_calls s) (failed_calls s + 1)
          (total_data_points s).

Definition data_points (n : Z) (s : Stats) : Stats :=
  mkStats (total_api_calls s) (successful_calls s) (failed_calls s)
          (total_data_points s + n).

(** [time.sleep(seconds)] *)
Definition sleep (seconds : Z) (st : State) : State :=
  mkState (completed_tickers st) (stats st) (sent st) (slept st + seconds)
          (csv_files st) (progress_file st).

(** How often [req] was sent before. *)
Definition attempts (req : Request) (st : State) : nat :=
  length (filter (fun r => r = req) (sent st)).

(** [requests.get(url, params=params, timeout=30)] *)
Definition requests_get (env : Env) (req : Request) (st : State) : Reply * State :=
  (server env req (attempts req st),
   mkState (completed_tickers st) (stats st) (sent st ++ [req]) (slept st)
           (csv_files st) (progress_file st)).

(** ** The progress store *)

(** [_load_progress]: the stored set, or the empty set when the file is
    missing or cannot be read. *)
Definition load_progress (f : ProgressFile) : gset string :=
  match f with
  | Stored completed _ => completed
  | Absent | Malformed => ∅
  end.

(** [_save_progress]: the ticker joins the set in memory, then the whole
    record is written out; a failing write raises after the set was
    changed. *)
Definition save_progress (env : Env) (ticker : string) (st : State)
  : result unit * State :=
  let completed := {[ticker]} ∪ completed_tickers st in
  if progress_writable env then
    (Ok tt, mkState completed (stats st) (sent st) (slept st) (csv_files st)
                    (Stored completed (stats st)))
  else
    (Raise OSError, mkState completed (stats st) (sent st) (slept st)
                            (csv_files st) (progress_file st)).

Definition no_stats : Stats := mkStats 0 0 0 0.

(** [PolygonDataDownloader.__init__] in a new process over the files that
    [st] left behind. *)
Definition restart (st : State) : State :=
  mkState (load_progress (progress_file st)) no_stats [] 0
          (csv_files st) (progress_file st).

(** ** Writing a ticker's rows *)

Definition timestamp_le (a b : Bar) : Prop := timestamp a <= timestamp b.

Global Instance timestamp_le_dec a b : Decision (timestamp_le a b).
Proof. unfold timestamp_le. apply _. Defined.

(** [df.sort_values('timestamp')]: ascending by the timestamp column. The
    order that pandas gives to rows of equal timestamp is not specified;
    the model keeps them in their order of arrival. *)
Definition sort_values (df : list Bar) : list Bar := merge_sort timestamp_le df.

(** [df.drop_duplicates()]: no column subset is given, so a row is dropped
    when an earlier row equals it in every column; [seen] holds the rows
    kept so far. *)
Fixpoint drop_duplicates_from (seen : list Bar) (df : list Bar) : list Bar :=
  match df with
  | [] => []
  | row :: rest =>
      if bool_decide (row ∈ seen) then drop_duplicates_from seen rest
      else row :: drop_duplicates_from (row :: seen) rest
  end.

Definition drop_duplicates (df : list Bar) : list Bar := drop_duplicates_from [] df.

(** [final_df.to_csv(output_file, index=False)] *)
Definition to_csv (env : Env) (ticker : string) (df : list Bar) (st : State)
  : result unit * State :=
  if csv_writable env ticker then
    (Ok tt, mkState (completed_tickers st) (stats st) (sent st) (slept st)
                    (<[ticker := df]> (csv_files st)) (progress_file st))
  else (Raise OSError, st).

(** ** The per-ticker task *)

(** The body of [for chunk_start, chunk_end in date_chunks]: one request,
    then the branch on the status code. [all_data] is the list of frames
    collected so far. Every branch ends the iteration, the two [continue]
    included: the [for] statement then takes the next chunk. *)
Definition fetch_chunk (env : Env) (ticker : string) (c : chunk)
    (all_data : list (list Bar)) (st : State) : list (list Bar) * State :=
  let req := mkRequest ticker (fst c) (snd c) in
  let st := set_stats api_call st in
  let '(reply, st) := requests_get env req st in
  match reply with
  | Failed _ => (all_data, set_stats call_failed st)
  | Response code body =>
      if code =? 200 then
        match body with
        | Unparsable => (all_data, set_stats call_failed st)
        | Json (Some (row :: rows)) =>
            let df := row :: rows in
            (all_data ++ [df],
             set_stats (data_points (Z.of_nat (length df)))
                       (set_stats call_succeeded st))
        | Json _ => (all_data, set_stats call_succeeded st)
        end
      else if code =? 429 then (all_data, sleep 60 st)
      else (all_data, set_stats call_failed st)
  end.

Fixpoint fetch_chunks (env : Env) (ticker : string) (date_chunks : list chunk)
    (all_data : list (list Bar)) (st : State) : list (list Bar) * State :=
  match date_chunks with
  | [] => (all_data, st)
  | c :: rest =>
      let '(all_data, st) := fetch_chunk env ticker c all_data st in
      fetch_chunks env ticker rest all_data st
  end.

(** [PolygonDataDownloader.download_ticker_data] *)
Definition download_ticker_data (env : Env) (ticker start_date end_date : string)
    (st : State) : result bool * State :=
  if bool_decide (ticker ∈ completed_tickers st) then (Ok true, st)
  else if bool_decide (is_Some (csv_files st !! ticker)) then
    match save_progress env ticker st with
    | (Raise e, st) => (Raise e, st)
    | (Ok _, st) => (Ok true, st)
    end
  else
    match generate_date_chunks start_date end_date with
    | Raise e => (Raise e, st)
    | Ok date_chunks =>
        let '(all_data, st) := fetch_chunks env ticker date_chunks [] st in
        match all_data with
        | _ :: _ =>
            let final_df := drop_duplicates (sort_values (concat all_data)) in
            match to_csv env ticker final_df st with
            | (Raise e, st) => (Raise e, st)
            | (Ok _, st) =>
                match save_progress env ticker st with
                | (Raise e, st) => (Raise e, st)
                | (Ok _, st) => (Ok true, st)
                end
            end
        | [] =>
            match save_progress env ticker st with
            | (Raise e, st) => (Raise e, st)
            | (Ok _, st) => (Ok true, st)
            end
        end
    end.

(** ** The scheduler *)

(** The defaults of [download_ticker_data], used by [download_all_data]. *)
Definition DEFAULT_START : string := "2020-09-08".
Definition DEFAULT_END : string := "2025-08-29".

(** The order of Python's [str]: by code point, which on the UTF-8 bytes
    of a string is the byte-wise order of [String.leb]. *)
Definition string_le (a b : string) : Prop := String.leb a b = true.

Global Instance string_le_dec a b : Decision (string_le a b).
Proof. unfold string_le. apply _. Defined.

(** [get_russell3000_tickers]. [all_tickers] is the list written out in
    the source; the method returns [sorted(list(set(all_tickers)))] and
    writes the same list, one ticker a line, to [russell3000_tickers.txt].
    The order in which a Python set is listed is not specified; the sort
    that follows makes the result independent of it, as
    [get_russell3000_tickers_sorted_distinct] shows. *)
Definition get_russell3000_tickers (all_tickers : list string) : list string :=
  merge_sort string_le (remove_dups all_tickers).

(** [work_queue = [ticker for ticker in tickers if ticker not in
    self.completed_tickers]] *)
Definition work_queue (tickers : list string) (st : State) : list string :=
  filter (fun ticker => ticker ∉ completed_tickers st) tickers.

(** The jobs of the pool, run one after the other in queue order; an
    exception of a job is caught where its future is read and the next job
    goes on from the state the failed one left. The interleaving of the
    worker threads is not modelled. *)
Fixpoint run_jobs (env : Env) (queue : list string) (st : State) : State :=
  match queue with
  | [] => st
  | ticker :: rest =>
      run_jobs env rest (snd (download_ticker_data env ticker DEFAULT_START DEFAULT_END st))
  end.

(** [PolygonDataDownloader.download_all_data], [tickers] being the list
    returned by [get_russell3000_tickers]. *)
Definition download_all_data (env : Env) (tickers : list string) (st : State) : State :=
  let total_tickers := Z.of_nat (length tickers) in
  let completed_count := Z.of_nat (size (completed_tickers st)) in
  let remaining_tickers := total_tickers - completed_count in
  if remaining_tickers =? 0 then st
  else run_jobs env (work_queue tickers st) st.

(** ** Notions used to state the properties of the task *)

(** The last step of [ord2ymd]: month and day from the day of the year
    [r], counted from 0, in a year that is a leap year or not. *)
Definition month_of_yday (leap : bool) (r : Z) : Z * Z :=
  let month := Z.shiftr (r + 50) 5 in
  let preceding :=
    DAYS_BEFORE_MONTH month + (if (2 <? month) && leap then 1 else 0) in
  if r <? preceding then
    let month := month - 1 in
    let preceding :=
      preceding
      - (DAYS_IN_MONTH month + (if (month =? 2) && leap then 1 else 0)) in
    (month, r - preceding + 1)
  else (month, r - preceding + 1).

(** Month and day in range; the year is not constrained. *)
Definition wf_date (d : datetime) : Prop :=
  1 <= month d <= 12 ∧ 1 <= day d <= days_in_month (year d) (month d).

(** The chunks [ds], taken in order, tile the days [lo .. hi]: the first
    starts on day [lo], every chunk has its start no later than its end,
    each one starts on the day after the one before it ends, and the last
    one ends on day [hi]. Days are counted by their ordinal. With no chunk
    the range is empty. *)
Fixpoint tiles (lo : Z) (ds : list (datetime * datetime)) (hi : Z) : Prop :=
  match ds with
  | [] => hi = lo - 1
  | (a, b) :: rest =>
      valid_date a = true ∧ valid_date b = true
      ∧ toordinal a = lo ∧ lo <= toordinal b
      ∧ tiles (toordinal b + 1) rest hi
  end.

(** The last day that the chunks of [generate_date_chunks] reach for the
    range of days [s .. e]: the loop stops as soon as [current] is no longer
    before [e], so day [e] itself is reached only when it does not start a
    chunk of its own. *)
Definition last_covered (s e : Z) : Z :=
  if (e - s) mod (CHUNK_DAYS + 1) =? 0 then e - 1 else e.

(** The text of a chunk of dates. *)
Definition chunk_text (c : datetime * datetime) : chunk :=
  (strftime c.1, strftime c.2).

(** A text of the form [YYYY-MM-DD], all digits, that names no day of the
    calendar, such as [2024-02-30], [2024-13-01] or [0000-01-01]: the
    texts that [strptime(.., "%Y-%m-%d")] and [fromisoformat] both
    refuse with [ValueError]. *)
Definition names_no_day (s : string) : Prop :=
  ∃ y m d, 0 <= y <= 9999 ∧ 0 <= m <= 99 ∧ 0 <= d <= 99
           ∧ s = strftime (mkdate y m d)
           ∧ valid_date (mkdate y m d) = false.

(** Day [d] lies within the chunk, both ends included. *)
Definition chunk_covers (c : chunk) (d : datetime) : bool :=
  match strptime c.1, strptime c.2 with
  | Ok a, Ok b => dt_leb a d && dt_leb d b
  | _, _ => false
  end.

(** Day [d] lies within one of the chunks. *)
Definition covered (cs : list chunk) (d : datetime) : bool :=
  existsb (fun c => chunk_covers c d) cs.

(** The request that the task sends for chunk [c] of [ticker]. *)
Definition request_of (ticker : string) (c : chunk) : Request :=
  mkRequest ticker c.1 c.2.

(** What the loop leaves alone: the completed set and the files. *)
Definition same_store (st st' : State) : Prop :=
  completed_tickers st' = completed_tickers st
  ∧ csv_files st' = csv_files st
  ∧ progress_file st' = progress_file st.

(** The counters only grow. *)
Definition stats_le (s s' : Stats) : Prop :=
  total_api_calls s <= total_api_calls s'
  ∧ successful_calls s <= successful_calls s'
  ∧ failed_calls s <= failed_calls s'.

(** ** The FX month loader: fetch with retries, and the month writer *)

Module FX.

(** One aggregate as the SDK's [list_aggs] generator yields it. *)
Record Agg : Type := mkAgg {
  agg_timestamp : Z;
  agg_open : Z;
  agg_high : Z;
  agg_low : Z;
  agg_close : Z;
  agg_volume : Z;
  agg_vwap : option Z;
  agg_transactions : option Z
}.

(** One row of the frame returned by [fetch_aggs_month]. *)
Record Row : Type := mkRow {
  pair : string;
  ts_ms : Z;
  interval_start_utc : Z;
  interval_end_utc : Z;
  row_open : Z;
  row_high : Z;
  row_low : Z;
  row_close : Z;
  row_volume : Z;
  vwap : option Z;
  trades : option Z
}.

Definition MINUTE_MS : Z := 60000.

(** [ts.dt.floor("min")] and [+ pd.Timedelta(minutes=1)], in milliseconds. *)
Definition row_of_agg (p : string) (r : Agg) : Row :=
  let start := agg_timestamp r - agg_timestamp r mod MINUTE_MS in
  mkRow p (agg_timestamp r) start (start + MINUTE_MS)
        (agg_open r) (agg_high r) (agg_low r) (agg_close r) (agg_volume r)
        (agg_vwap r) (agg_transactions r).

(** The body of [fetch_aggs_month], without its decorator. [listing] is
    what iterating [client.list_aggs(...)] gives: all the aggregates of the
    month, or the exception raised on the way. *)
Definition fetch_body (p : string) (listing : result (list Agg)) : result (list Row) :=
  aggs <-! listing;
  Ok (map (row_of_agg p) aggs).

(** The exception classes named in
    [@backoff.on_exception(backoff.expo, (requests.HTTPError,
    requests.ConnectionError), max_time=300)]. The status carried by an
    [HTTPError] plays no part. *)
Definition retried (e : exn) : bool :=
  match e with
  | HTTPError _ | ConnectionError => true
  | _ => false
  end.

(** [max_time=300], in seconds. *)
Definition MAX_TIME : Q := 300%Q.

(** [backoff.expo] with its defaults: 1, 2, 4, ... seconds. *)
Definition expo (n : nat) : Q := inject_Z (2 ^ Z.of_nat n).

(** One call of the wrapped function as the world decides it: what the SDK
    does, how long the call lasts (seconds), and the fraction drawn by the
    jitter for the wait that may follow. *)
Record attempt : Type := mkAttempt {
  listing : result (list Agg);
  took : Q;
  draw : Q
}.

(** What one call of the decorated function amounts to. *)
Record retry_run : Type := mkRun {
  returned : result (list Row);
  calls : nat;
  sleeps : list Q
}.

Definition Qmin (a b : Q) : Q := if Qle_bool a b then a else b.

(** The retry loop that the decorator puts around [fetch_body]. [tries]
    counts the failures so far and [elapsed] is the time since the first
    call, read when an attempt starts. An exception outside the named
    classes is not caught; a caught one is raised again once [elapsed] has
    reached [MAX_TIME]; otherwise the loop sleeps for the jittered
    exponential wait, cut to the time left, and calls again. The script
    lists the attempts the world is asked for; when it is used up the model
    answers [OutOfFuel]. *)
Fixpoint on_exception (p : string) (script : list attempt) (tries : nat) (elapsed : Q)
  : retry_run :=
  match script with
  | [] => mkRun (Raise OutOfFuel) 0 []
  | a :: rest =>
      match fetch_body p (listing a) with
      | Ok df => mkRun (Ok df) 1 []
      | Raise e =>
          if negb (retried e) then mkRun (Raise e) 1 []
          else if Qle_bool MAX_TIME elapsed then mkRun (Raise e) 1 []
          else
            let seconds := Qmin (draw a * expo tries) (MAX_TIME - elapsed) in
            let r := on_exception p rest (S tries) (elapsed + took a + seconds) in
            mkRun (returned r) (S (calls r)) (seconds :: sleeps r)
      end
  end.

(** The seconds spent sleeping between the attempts. *)
Definition total_slept (r : retry_run) : Q := foldr Qplus 0%Q (sleeps r).

(** [fetch_aggs_month] as decorated. *)
Definition fetch_aggs_month (p : string) (script : list attempt) : retry_run :=
  on_exception p script 0 0.

(** [save_month_parquet]: an empty frame returns at once; otherwise the
    frame becomes the file [aggs_1min/{pair}/{y:04d}-{m:02d}.parquet]. *)
Definition save_month_parquet (df : list Row) (p : string) (y m : Z)
    (files : gmap (string * Z * Z) (list Row)) : gmap (string * Z * Z) (list Row) :=
  match df with
  | [] => files
  | _ :: _ => <[(p, y, m) := df]> files
  end.

End FX.

(** ** The main loop of the FX loader *)

Module FXMain.

Import FX.

(** How the loop over the months of a pair ends: it finishes, or an
    exception leaves it, which ends the program. [IndexError] is raised by
    [s.split("-")[1]] on a text without a dash. *)
Inductive ending : Type :=
| Finished
| Raised (e : exn)
| IndexError.

(** [s.split("-")] *)
Fixpoint split_dash (s : string) : list string :=
  match s with
  | EmptyString => [EmptyString]
  | String c rest =>
      if Ascii.eqb c "-" then EmptyString :: split_dash rest
      else
        match split_dash rest with
        | [] => [String c EmptyString]
        | word :: words => String c word :: words
        end
  end.

Fixpoint digits_value (acc : Z) (s : string) : option Z :=
  match s with
  | EmptyString => Some acc
  | String c rest =>
      match digit_of_ascii c with
      | Some d => digits_value (10 * acc + d) rest
      | None => None
      end
  end.

(** [int(s)] on the texts that reach it here, which are runs of decimal
    digits; any other text is taken to be a [ValueError]. *)
Definition int (s : string) : result Z :=
  match s with
  | EmptyString => Raise ValueError
  | String _ _ =>
      match digits_value 0 s with
      | Some z => Ok z
      | None => Raise ValueError
      end
  end.

(** The body of [for s, e in month_chunks(start_date, end_date)], run over
    the chunks that the generator yields, on the files
    [aggs_1min/{pair}/{y:04d}-{m:02d}.parquet] kept by pair, year and month: the year and the month are cut
    out of the start text, the month is fetched, saved under that year and
    month, and its rows are counted. [world p c] is the script of the
    fetch of chunk [c] for pair [p]. An exception ends the loop with the
    files written so far. *)
Fixpoint pull_chunks (world : string -> chunk -> list attempt) (p : string)
    (chunks : list chunk) (fs : gmap (string * Z * Z) (list Row)) (total_rows : Z)
  : gmap (string * Z * Z) (list Row) * Z * ending :=
  match chunks with
  | [] => (fs, total_rows, Finished)
  | (s, e) :: rest =>
      match split_dash s with
      | y :: m :: _ =>
          match returned (fetch_aggs_month p (world p (s, e))) with
          | Raise x => (fs, total_rows, Raised x)
          | Ok df =>
              match int y, int m with
              | Ok yy, Ok mm =>
                  let fs := save_month_parquet df p yy mm fs in
                  let cnt := Z.of_nat (length df) in
                  pull_chunks world p rest fs (total_rows + cnt)
              | Raise x, _ => (fs, total_rows, Raised x)
              | _, Raise x => (fs, total_rows, Raised x)
              end
          end
      | _ => (fs, total_rows, IndexError)
      end
  end.

(** The body of [for pair in PAIRS] for one pair: [total_rows] starts at
    zero, the chunks of the generator are worked through, and an exception
    of the generator ends the loop after the chunks it has yielded. *)
Definition pull_pair (world : string -> chunk -> list attempt) (p : string)
    (start_date end_date : string) (fs : gmap (string * Z * Z) (list Row))
  : gmap (string * Z * Z) (list Row) * Z * ending :=
  let '(chunks, fin) := month_chunks start_date end_date in
  match pull_chunks world p chunks fs 0 with
  | (fs, total_rows, Finished) =>
      match fin with
      | StopIteration => (fs, total_rows, Finished)
      | GenRaise x => (fs, total_rows, Raised x)
      end
  | stopped => stopped
  end.

End FXMain.

(** ** Notions used to state further properties of the chunkers *)

(** The number of days from the start of a chunk to its end. *)
Definition span (c : datetime * datetime) : Z := toordinal c.2 - toordinal c.1.

(** The number of the month of a date, months being counted through the
    years. *)
Definition month_index (d : datetime) : Z := 12 * year d + month d.

(** The chunks [ds] lie in the months numbered [k], [k + 1], ... in this
    order, one chunk per month, each chunk with both ends in its month. *)
Fixpoint months_from (k : Z) (ds : list (datetime * datetime)) : Prop :=
  match ds with
  | [] => True
  | (a, b) :: rest =>
      month_index a = k ∧ month_index b = k ∧ months_from (k + 1) rest
  end.

(** ** Notions used to state further properties of the FX loop *)

(** The rows that the fetches of the chunks [ds] return for pair [p], all
    together; a fetch that raises counts for nothing. *)
Fixpoint rows_fetched (world : string -> chunk -> list FX.attempt) (p : string)
    (ds : list (datetime * datetime)) : Z :=
  match ds with
  | [] => 0
  | c :: rest =>
      match FX.returned (FX.fetch_aggs_month p (world p (chunk_text c))) with
      | Ok df => Z.of_nat (length df)
      | Raise _ => 0
      end + rows_fetched world p rest
  end.

(** ** Notions used to state further properties of the downloader *)

(** The set in memory is the set that the progress file holds. *)
Definition in_sync (st : State) : Prop :=
  load_progress (progress_file st) = completed_tickers st.

(** The number of rows in the frames collected so far. *)
Definition rows_collected (all_data : list (list Bar)) : Z :=
  Z.of_nat (length (concat all_data)).

(** ** Sample worlds, used to run the code on concrete inputs *)

Module Samples.

Definition ABC : string := "ABC".
Definition AAPL : string := "AAPL".
Definition MSFT : string := "MSFT".

(** A first run: nothing completed, nothing on disk, nothing sent. *)
Definition fresh : State := mkState ∅ no_stats [] 0 ∅ Absent.

Definition bar (t c : Z) : Bar := mkBar t 10 12 9 c 100.

(** An environment in which every file can be written. *)
Definition writable (srv : Request -> nat -> Reply) : Env :=
  mkEnv srv (fun _ => true) true.

(** A service without data: status 200 and no ['results']. *)
Definition quiet_server : Request -> nat -> Reply :=
  fun _ _ => Response 200 (Json None).

(** A service that answers the first attempt of any request with status
    429 and every later attempt with one bar. *)
Definition throttling_server : Request -> nat -> Reply :=
  fun _ n =>
    match n with
    | O => Response 429 Unparsable
    | S _ => Response 200 (Json (Some [bar 1704186000000 11]))
    end.

(** A service whose bars for the chunk starting 2024-02-16 begin with the
    timestamp that ends the chunk before, at another close price. *)
Definition revising_server : Request -> nat -> Reply :=
  fun req _ =>
    if bool_decide (req_from req = "2024-01-01"%string)
    then Response 200 (Json (Some [bar 1000 11; bar 2000 12]))
    else Response 200 (Json (Some [bar 2000 13; bar 3000 14])).

(** A service whose two chunks overlap in one bar, the same in both. *)
Definition overlapping_server : Request -> nat -> Reply :=
  fun req _ =>
    if bool_decide (req_from req = "2024-01-01"%string)
    then Response 200 (Json (Some [bar 1000 11; bar 2000 12]))
    else Response 200 (Json (Some [bar 2000 12; bar 3000 14])).

(** A service that refuses the chunk starting 2024-01-01 with status 404
    and serves one bar for any other chunk. *)
Definition refusing_server : Request -> nat -> Reply :=
  fun req _ =>
    if bool_decide (req_from req = "2024-01-01"%string)
    then Response 404 Unparsable
    else Response 200 (Json (Some [bar 5000 11])).

Definition EURUSD : string := "EURUSD".

Definition agg (t : Z) : FX.Agg := FX.mkAgg t 10 12 9 11 100 None None.

(** An FX service that has one aggregate for every month but February
    2024, which is empty, and that answers every first call with a
    connection error. *)
Definition fx_world : string -> chunk -> list FX.attempt :=
  fun _ c =>
    if bool_decide (c.1 = "2024-02-01"%string)
    then [FX.mkAttempt (Ok []) 1 (1 # 2)]
    else [FX.mkAttempt (Raise ConnectionError) 1 (1 # 2);
          FX.mkAttempt (Ok [agg 60000]) 1 (1 # 2)].

(** An FX service whose listing of February 2024 is malformed. *)
Definition fx_broken_world : string -> chunk -> list FX.attempt :=
  fun _ c =>
    if bool_decide (c.1 = "2024-02-01"%string)
    then [FX.mkAttempt (Raise ValueError) 1 (1 # 2)]
    else [FX.mkAttempt (Ok [agg 60000]) 1 (1 # 2)].

(** A service that refuses everything with status 403. *)
Definition forbidding_server : Request -> nat -> Reply :=
  fun _ _ => Response 403 Unparsable.

End Samples.

Import Samples.

(** * Properties *)

(** ** Calendar facts: ordinals and dates *)

Section CalendarFacts.

Lemma is_leap_spec y : is_leap y = true ↔ (y mod 4 = 0 ∧ (y mod 100 ≠ 0 ∨ y mod 400 = 0)).
Proof.
  unfold is_leap. rewrite andb_true_iff, orb_true_iff, negb_true_iff, !Z.eqb_eq, Z.eqb_neq. tauto.
Qed.

Lemma days_before_year_succ y :
  days_before_year (y + 1) = days_before_year y + 365 + (if is_leap y then 1 else 0).
Proof.
  unfold days_before_year. cbv zeta.
  replace (y + 1 - 1) with y by lia.
  destruct (is_leap y) eqn:Hl.
  - apply is_leap_spec in Hl. Z.div_mod_to_equations; lia.
  - assert (~ (y mod 4 = 0 ∧ (y mod 100 ≠ 0 ∨ y mod 400 = 0))) as Hn.
    { rewrite <- is_leap_spec. congruence. }
    Z.div_mod_to_equations; lia.
Qed.

Lemma is_leap_false y :
  is_leap y = false ↔ ¬ (y mod 4 = 0 ∧ (y mod 100 ≠ 0 ∨ y mod 400 = 0)).
Proof. rewrite <- is_leap_spec. destruct (is_leap y); split; congruence. Qed.

(** Year arithmetic on the decomposition of a year count. *)
Lemma days_before_year_decomposed a b c d :
  0 <= b <= 3 → 0 <= c <= 24 → 0 <= d <= 3 →
  days_before_year (400 * a + 100 * b + 4 * c + d + 1)
  = 146097 * a + 36524 * b + 1461 * c + 365 * d.
Proof.
  intros Hb Hc Hd. unfold days_before_year. cbv zeta.
  replace (400 * a + 100 * b + 4 * c + d + 1 - 1) with (400 * a + 100 * b + 4 * c + d) by lia.
  Z.div_mod_to_equations. lia.
Qed.

Lemma is_leap_decomposed a b c d :
  0 <= b <= 3 → 0 <= c <= 24 → 0 <= d <= 3 →
  is_leap (400 * a + 100 * b + 4 * c + d + 1)
  = (d =? 3) && (negb (c =? 24) || (b =? 3)).
Proof.
  intros Hb Hc Hd.
  destruct ((d =? 3) && (negb (c =? 24) || (b =? 3))) eqn:E.
  - apply is_leap_spec.
    rewrite andb_true_iff, orb_true_iff, negb_true_iff, !Z.eqb_eq, Z.eqb_neq in E.
    Z.div_mod_to_equations. lia.
  - apply is_leap_false.
    rewrite andb_false_iff, orb_false_iff, negb_false_iff, !Z.eqb_eq, !Z.eqb_neq in E.
    Z.div_mod_to_equations. lia.
Qed.

Lemma month_of_yday_spec (leap : bool) r :
  0 <= r < 365 + (if leap then 1 else 0) →
  let '(m, d) := month_of_yday leap r in
  1 <= m <= 12 ∧ 1 <= d <= (if (m =? 2) && leap then 29 else DAYS_IN_MONTH m)
  ∧ DAYS_BEFORE_MONTH m + (if (2 <? m) && leap then 1 else 0) + d = r + 1.
Proof.
  intros Hr. unfold month_of_yday. cbv zeta.
  rewrite Z.shiftr_div_pow2 by lia. change (2 ^ 5) with 32.
  assert (1 <= (r + 50) / 32 <= 12) as Hm.
  { destruct leap; Z.div_mod_to_equations; lia. }
  assert (32 * ((r + 50) / 32) <= r + 50 < 32 * ((r + 50) / 32) + 32) as Hq.
  { Z.div_mod_to_equations; lia. }
  set (m := (r + 50) / 32) in *. clearbody m.
  assert (m = 1 ∨ m = 2 ∨ m = 3 ∨ m = 4 ∨ m = 5 ∨ m = 6 ∨ m = 7 ∨ m = 8
          ∨ m = 9 ∨ m = 10 ∨ m = 11 ∨ m = 12) as Hcases by lia.
  destruct leap;
  repeat (destruct Hcases as [->|Hcases]); try subst m; simpl;
    (repeat match goal with |- context [?a <? ?b] => destruct (Z.ltb_spec a b); simpl end);
    lia.
Qed.

Lemma ord2ymd_decomposed a b c d r :
  0 <= b <= 4 → 0 <= c <= 24 → 0 <= d <= 4 → 0 <= r < 365 →
  0 <= 36524 * b + 1461 * c + 365 * d + r < 146097 →
  0 <= 1461 * c + 365 * d + r < 36524 →
  0 <= 365 * d + r < 1461 →
  ord2ymd (146097 * a + 36524 * b + 1461 * c + 365 * d + r + 1)
  = if (d =? 4) || (b =? 4) then mkdate (400 * a + 100 * b + 4 * c + d) 12 31
    else
      let '(m, dd) := month_of_yday ((d =? 3) && (negb (c =? 24) || (b =? 3))) r in
      mkdate (400 * a + 100 * b + 4 * c + d + 1) m dd.
Proof.
  intros Hb Hc Hd Hr H400 H100 H4.
  unfold ord2ymd, DI400Y, DI100Y, DI4Y. cbv zeta.
  replace (146097 * a + 36524 * b + 1461 * c + 365 * d + r + 1 - 1)
    with (146097 * a + (36524 * b + 1461 * c + 365 * d + r)) by lia.
  assert ((146097 * a + (36524 * b + 1461 * c + 365 * d + r)) / 146097 = a) as ->.
  { Z.div_mod_to_equations; lia. }
  assert ((146097 * a + (36524 * b + 1461 * c + 365 * d + r)) mod 146097
          = 36524 * b + 1461 * c + 365 * d + r) as ->.
  { Z.div_mod_to_equations; lia. }
  assert ((36524 * b + 1461 * c + 365 * d + r) / 36524 = b) as ->.
  { Z.div_mod_to_equations; lia. }
  assert ((36524 * b + 1461 * c + 365 * d + r) mod 36524 = 1461 * c + 365 * d + r) as ->.
  { Z.div_mod_to_equations; lia. }
  assert ((1461 * c + 365 * d + r) / 1461 = c) as ->.
  { Z.div_mod_to_equations; lia. }
  assert ((1461 * c + 365 * d + r) mod 1461 = 365 * d + r) as ->.
  { Z.div_mod_to_equations; lia. }
  assert ((365 * d + r) / 365 = d) as ->.
  { Z.div_mod_to_equations; lia. }
  assert ((365 * d + r) mod 365 = r) as ->.
  { Z.div_mod_to_equations; lia. }
  destruct ((d =? 4) || (b =? 4)) eqn:E.
  - f_equal. lia.
  - unfold month_of_yday. cbv zeta.
    replace (a * 400 + 1 + b * 100 + c * 4 + d) with (400 * a + 100 * b + 4 * c + d + 1) by lia.
    destruct (r <? _); reflexivity.
Qed.

Lemma ord2ymd_correct n :
  1 <= n →
  1 <= year (ord2ymd n)
  ∧ 1 <= month (ord2ymd n) <= 12
  ∧ 1 <= day (ord2ymd n) <= days_in_month (year (ord2ymd n)) (month (ord2ymd n))
  ∧ toordinal (ord2ymd n) = n.
Proof.
  intros Hn.
  set (a := (n - 1) / 146097).
  set (r400 := (n - 1) mod 146097).
  set (b := r400 / 36524).
  set (r100 := r400 mod 36524).
  set (c := r100 / 1461).
  set (r4 := r100 mod 1461).
  set (d := r4 / 365).
  set (r := r4 mod 365).
  assert (n = 146097 * a + 36524 * b + 1461 * c + 365 * d + r + 1
          ∧ 0 <= a ∧ 0 <= b <= 4 ∧ 0 <= c <= 24 ∧ 0 <= d <= 4 ∧ 0 <= r < 365
          ∧ 0 <= 36524 * b + 1461 * c + 365 * d + r < 146097
          ∧ 0 <= 1461 * c + 365 * d + r < 36524
          ∧ 0 <= 365 * d + r < 1461)
    as (Heq & Ha & Hb & Hc & Hd & Hr & H400 & H100 & H4).
  { subst a r400 b r100 c r4 d r. Z.div_mod_to_equations. lia. }
  clearbody a b c d r. clear r400 r100 r4. subst n.
  rewrite ord2ymd_decomposed by done.
  destruct (Z.eqb_spec d 4) as [Hd4|Hd4]; simpl.
  { (* 31 December of the fourth year of a four-year cycle *)
    assert (r = 0) by lia. subst d r.
    unfold toordinal, ymd2ord, days_in_month, days_before_month. simpl.
    replace (400 * a + 100 * b + 4 * c + 4) with (400 * a + 100 * b + 4 * c + 3 + 1) by lia.
    rewrite days_before_year_decomposed, is_leap_decomposed by lia.
    assert (c ≠ 24 ∨ b = 3) as Hleap by lia.
    assert ((3 =? 3) && (negb (c =? 24) || (b =? 3)) = true) as ->.
    { simpl. destruct (Z.eqb_spec c 24), (Z.eqb_spec b 3); simpl; try done; lia. }
    simpl. lia. }
  destruct (Z.eqb_spec b 4) as [Hb4|Hb4]; simpl.
  { (* 31 December of the last year of a 400-year cycle *)
    assert (c = 0 ∧ d = 0 ∧ r = 0) as (-> & -> & ->) by lia. subst b.
    unfold toordinal, ymd2ord, days_in_month, days_before_month. simpl.
    replace (400 * a + 100 * 4 + 4 * 0 + 0) with (400 * a + 100 * 3 + 4 * 24 + 3 + 1) by lia.
    rewrite days_before_year_decomposed, is_leap_decomposed by lia.
    simpl. lia. }
  pose proof (month_of_yday_spec ((d =? 3) && (negb (c =? 24) || (b =? 3))) r) as Hm.
  destruct (month_of_yday _ r) as [m dd]. simpl.
  unfold toordinal, ymd2ord, days_in_month, days_before_month. simpl.
  rewrite days_before_year_decomposed, is_leap_decomposed by lia.
  destruct Hm as (Hm1 & Hm2 & Hm3).
  { destruct (_ && _); lia. }
  repeat split; try lia.
Qed.

Lemma valid_date_spec d :
  valid_date d = true ↔ MINYEAR <= year d <= MAXYEAR ∧ wf_date d.
Proof.
  unfold valid_date, wf_date. rewrite !andb_true_iff, !Z.leb_le. tauto.
Qed.

Lemma days_before_year_mono y1 y2 :
  y1 <= y2 → days_before_year y1 <= days_before_year y2.
Proof.
  intros H. unfold days_before_year. cbv zeta. Z.div_mod_to_equations. lia.
Qed.

Lemma month_cases m :
  1 <= m <= 12 →
  m = 1 ∨ m = 2 ∨ m = 3 ∨ m = 4 ∨ m = 5 ∨ m = 6 ∨ m = 7 ∨ m = 8
  ∨ m = 9 ∨ m = 10 ∨ m = 11 ∨ m = 12.
Proof. lia. Qed.

Ltac by_month H :=
  apply month_cases in H;
  repeat (destruct H as [->|H]); try subst.

Lemma days_in_month_pos y m : 1 <= m <= 12 → 28 <= days_in_month y m <= 31.
Proof.
  intros H. unfold days_in_month. by_month H; destruct (is_leap y); simpl; lia.
Qed.

(** The months of a year follow one another without a gap. *)
Lemma days_before_month_succ y m :
  1 <= m <= 11 →
  days_before_month y (m + 1) = days_before_month y m + days_in_month y m.
Proof.
  intros H. unfold days_before_month, days_in_month.
  assert (1 <= m <= 12) as H' by lia.
  by_month H'; destruct (is_leap y); simpl; lia.
Qed.

Lemma days_before_month_december y :
  days_before_month y 12 + days_in_month y 12
  = 365 + (if is_leap y then 1 else 0).
Proof. unfold days_before_month, days_in_month. destruct (is_leap y); simpl; lia. Qed.

Lemma days_before_month_mono y m1 m2 :
  1 <= m1 → m1 < m2 → m2 <= 12 →
  days_before_month y m1 + days_in_month y m1 <= days_before_month y m2.
Proof.
  intros H1 H2 H3.
  assert (1 <= m1 <= 12) as Ha by lia. assert (1 <= m2 <= 12) as Hb by lia.
  unfold days_before_month, days_in_month.
  by_month Ha; by_month Hb; try lia; destruct (is_leap y); simpl; lia.
Qed.

Lemma days_before_month_range y m :
  1 <= m <= 12 →
  0 <= days_before_month y m
  ∧ days_before_month y m + days_in_month y m <= 365 + (if is_leap y then 1 else 0).
Proof.
  intros H. unfold days_before_month, days_in_month.
  by_month H; destruct (is_leap y); simpl; lia.
Qed.

Lemma toordinal_range d :
  wf_date d →
  days_before_year (year d) < toordinal d <= days_before_year (year d + 1).
Proof.
  intros [Hm Hd]. unfold toordinal, ymd2ord.
  rewrite days_before_year_succ.
  pose proof (days_before_month_range (year d) (month d) Hm). lia.
Qed.

Lemma dt_ltb_toordinal_1 a b :
  wf_date a → wf_date b → dt_ltb a b = true → toordinal a < toordinal b.
Proof.
  intros Ha Hb. unfold dt_ltb.
  rewrite orb_true_iff, andb_true_iff, orb_true_iff, andb_true_iff,
    !Z.ltb_lt, !Z.eqb_eq.
  intros [Hy|[Hy [Hm|[Hm Hd]]]].
  - pose proof (toordinal_range a Ha). pose proof (toordinal_range b Hb).
    pose proof (days_before_year_mono (year a + 1) (year b)). lia.
  - destruct Ha as [Ha1 Ha2], Hb as [Hb1 Hb2]. unfold toordinal, ymd2ord.
    rewrite Hy in *.
    pose proof (days_before_month_mono (year b) (month a) (month b)). lia.
  - unfold toordinal, ymd2ord. rewrite Hy, Hm. lia.
Qed.

Lemma dt_ltb_total a b :
  dt_ltb a b = false → dt_ltb b a = false → a = b.
Proof.
  unfold dt_ltb. destruct a as [y1 m1 d1], b as [y2 m2 d2]. simpl.
  rewrite !orb_false_iff, !andb_false_iff, !orb_false_iff, !andb_false_iff,
    !Z.ltb_ge, !Z.eqb_neq.
  intros H1 H2. f_equal; lia.
Qed.

Lemma dt_ltb_toordinal a b :
  wf_date a → wf_date b → dt_ltb a b = true ↔ toordinal a < toordinal b.
Proof.
  intros Ha Hb. split; [by apply dt_ltb_toordinal_1|].
  intros Hlt. destruct (dt_ltb a b) eqn:E; [done|].
  destruct (dt_ltb b a) eqn:E'.
  - apply dt_ltb_toordinal_1 in E'; [lia|done..].
  - rewrite (dt_ltb_total a b E E') in Hlt. lia.
Qed.

Lemma dt_leb_toordinal a b :
  wf_date a → wf_date b → dt_leb a b = true ↔ toordinal a <= toordinal b.
Proof.
  intros Ha Hb. unfold dt_leb. rewrite negb_true_iff.
  destruct (dt_ltb b a) eqn:E.
  - apply dt_ltb_toordinal in E; [|done..]. split; [done|lia].
  - split; [|done]. intros _.
    destruct (Z.lt_ge_cases (toordinal b) (toordinal a)) as [H|H]; [|lia].
    apply dt_ltb_toordinal in H; [congruence|done..].
Qed.

Lemma toordinal_inj a b :
  wf_date a → wf_date b → toordinal a = toordinal b → a = b.
Proof.
  intros Ha Hb Heq. apply dt_ltb_total.
  - destruct (dt_ltb a b) eqn:E; [|done]. apply dt_ltb_toordinal in E; [lia|done..].
  - destruct (dt_ltb b a) eqn:E; [|done]. apply dt_ltb_toordinal in E; [lia|done..].
Qed.

Lemma toordinal_pos d : 1 <= year d → wf_date d → 1 <= toordinal d.
Proof.
  intros Hy Hd. pose proof (toordinal_range d Hd).
  pose proof (days_before_year_mono 1 (year d) Hy).
  change (days_before_year 1) with 0 in *. lia.
Qed.

Lemma toordinal_max d : valid_date d = true → 1 <= toordinal d <= MAXORDINAL.
Proof.
  intros (Hy & Hd)%valid_date_spec. unfold MINYEAR, MAXYEAR in Hy.
  split; [apply toordinal_pos; [lia|done]|].
  pose proof (toordinal_range d Hd).
  pose proof (days_before_year_mono (year d + 1) 10000).
  change (days_before_year 10000) with MAXORDINAL in *. lia.
Qed.

Lemma ord2ymd_valid n :
  1 <= n <= MAXORDINAL → valid_date (ord2ymd n) = true ∧ toordinal (ord2ymd n) = n.
Proof.
  intros Hn. destruct (ord2ymd_correct n) as (Hy & Hm & Hd & Ho); [lia|].
  split; [|done]. apply valid_date_spec. split; [|done].
  split; [done|]. unfold MAXYEAR.
  destruct (Z.le_gt_cases (year (ord2ymd n)) 9999) as [|Hbig]; [done|].
  pose proof (toordinal_range (ord2ymd n) (conj Hm Hd)).
  pose proof (days_before_year_mono 10000 (year (ord2ymd n))).
  change (days_before_year 10000) with MAXORDINAL in *. lia.
Qed.

Lemma ord2ymd_toordinal d : valid_date d = true → ord2ymd (toordinal d) = d.
Proof.
  intros Hv. pose proof (toordinal_max d Hv) as Hr.
  destruct (ord2ymd_valid _ Hr) as [Hv' Ho].
  apply valid_date_spec in Hv as [_ Hw], Hv' as [_ Hw'].
  by apply toordinal_inj.
Qed.

(** [d + timedelta(days=k)] in terms of ordinals. *)
Lemma add_days_ok d k :
  valid_date d = true →
  1 <= toordinal d + k <= MAXORDINAL →
  ∃ d', add_days d k = Ok d' ∧ valid_date d' = true
             ∧ toordinal d' = toordinal d + k.
Proof.
  intros Hv Hr. unfold add_days, fromordinal.
  assert ((0 <? toordinal d + k) && (toordinal d + k <=? MAXORDINAL) = true) as ->.
  { apply andb_true_iff. rewrite Z.ltb_lt, Z.leb_le. lia. }
  exists (ord2ymd (toordinal d + k)). split; [done|]. by apply ord2ymd_valid.
Qed.

End CalendarFacts.

(** ** Rows: sorting and duplicate removal *)

Section Rows.

Global Instance timestamp_le_total : Total timestamp_le.
Proof. intros a b. unfold timestamp_le. lia. Qed.

Global Instance timestamp_le_trans : Transitive timestamp_le.
Proof. intros a b c. unfold timestamp_le. lia. Qed.

Lemma sort_values_sorted df : StronglySorted timestamp_le (sort_values df).
Proof. apply StronglySorted_merge_sort; apply _. Qed.

Lemma sort_values_perm df : sort_values df ≡ₚ df.
Proof. apply merge_sort_Permutation. Qed.

Lemma elem_of_sort_values row df : row ∈ sort_values df ↔ row ∈ df.
Proof. by rewrite sort_values_perm. Qed.

Lemma elem_of_drop_duplicates_from row seen df :
  row ∈ drop_duplicates_from seen df ↔ row ∈ df ∧ row ∉ seen.
Proof.
  revert seen. induction df as [|x df IH]; intros seen; simpl.
  - set_solver.
  - case_bool_decide as Hx.
    + rewrite IH. set_solver.
    + rewrite elem_of_cons, IH, !elem_of_cons.
      destruct (decide (row = x)) as [->|Hne]; naive_solver.
Qed.

Lemma elem_of_drop_duplicates row df : row ∈ drop_duplicates df ↔ row ∈ df.
Proof.
  unfold drop_duplicates. rewrite elem_of_drop_duplicates_from. set_solver.
Qed.

Lemma NoDup_drop_duplicates_from seen df : NoDup (drop_duplicates_from seen df).
Proof.
  revert seen. induction df as [|x df IH]; intros seen; simpl.
  - constructor.
  - case_bool_decide; [apply IH|].
    constructor; [|apply IH].
    rewrite elem_of_drop_duplicates_from. set_solver.
Qed.

Lemma NoDup_drop_duplicates df : NoDup (drop_duplicates df).
Proof. apply NoDup_drop_duplicates_from. Qed.

Lemma drop_duplicates_from_sublist seen df :
  drop_duplicates_from seen df `sublist_of` df.
Proof.
  revert seen. induction df as [|x df IH]; intros seen; simpl.
  - constructor.
  - case_bool_decide; [apply sublist_cons|apply sublist_skip]; apply IH.
Qed.

Lemma StronglySorted_sublist_of (l k : list Bar) :
  l `sublist_of` k → StronglySorted timestamp_le k → StronglySorted timestamp_le l.
Proof.
  induction 1 as [|x l k Hsub IH|x l k Hsub IH]; intros Hk.
  - constructor.
  - apply StronglySorted_cons in Hk as [Hall Hk].
    apply StronglySorted_cons. split; [|by apply IH].
    apply Forall_forall. intros y Hy.
    rewrite Forall_forall in Hall. apply Hall. by eapply elem_of_sublist.
  - apply StronglySorted_cons in Hk as [_ Hk]. by apply IH.
Qed.

Lemma drop_duplicates_sorted df :
  StronglySorted timestamp_le df → StronglySorted timestamp_le (drop_duplicates df).
Proof.
  intros Hs. eapply StronglySorted_sublist_of; [|exact Hs].
  apply drop_duplicates_from_sublist.
Qed.

(** A row that is already there is dropped; a new one is kept. *)
Lemma drop_duplicates_idemp df : NoDup df → drop_duplicates df = df.
Proof.
  unfold drop_duplicates.
  assert (∀ seen, NoDup df → (∀ x, x ∈ df → x ∉ seen) →
                  drop_duplicates_from seen df = df) as H.
  { induction df as [|x df IH]; intros seen Hnd Hdisj; simpl; [done|].
    apply NoDup_cons in Hnd as [Hx Hnd].
    rewrite bool_decide_eq_false_2 by (apply Hdisj; set_solver).
    f_equal. apply IH; [done|]. intros y Hy. specialize (Hdisj y).
    rewrite elem_of_cons. intros [->|?]; [done|]. apply Hdisj; set_solver. }
  intros Hnd. apply H; [done|]. set_solver.
Qed.

End Rows.

(** ** The chunk loop of the per-ticker task *)

Ltac fetch_cases :=
  unfold fetch_chunk, requests_get, request_of, set_stats, sleep; simpl;
  repeat case_match; simplify_eq/=.

Section ChunkLoop.

Context (env : Env) (ticker : string).

Lemma fetch_chunk_store c acc st : same_store st (fetch_chunk env ticker c acc st).2.
Proof. fetch_cases; by repeat split. Qed.

Lemma fetch_chunk_sent c acc st :
  sent (fetch_chunk env ticker c acc st).2 = sent st ++ [request_of ticker c].
Proof. fetch_cases; done. Qed.

Lemma fetch_chunk_stats c acc st :
  stats_le (stats st) (stats (fetch_chunk env ticker c acc st).2).
Proof. fetch_cases; unfold stats_le; simpl; lia. Qed.

(** The frames collected before stay in front. *)
Lemma fetch_chunk_acc c acc st :
  fetch_chunk env ticker c acc st
  = (acc ++ (fetch_chunk env ticker c [] st).1, (fetch_chunk env ticker c [] st).2).
Proof. fetch_cases; by rewrite ?app_nil_r. Qed.

(** The three kinds of reply, one by one. *)
Lemma fetch_chunk_rows c acc st row rows :
  server env (request_of ticker c) (attempts (request_of ticker c) st)
  = Response 200 (Json (Some (row :: rows))) →
  (fetch_chunk env ticker c acc st).1 = acc ++ [row :: rows].
Proof.
  intros H. unfold fetch_chunk, requests_get, attempts in *. simpl.
  unfold request_of in H. simpl in H. by rewrite H.
Qed.

Lemma fetch_chunk_rate_limited c acc st body :
  server env (request_of ticker c) (attempts (request_of ticker c) st)
  = Response 429 body →
  fetch_chunk env ticker c acc st
  = (acc, sleep 60 (requests_get env (request_of ticker c) (set_stats api_call st)).2).
Proof.
  intros H. unfold fetch_chunk, requests_get, attempts in *. simpl.
  unfold request_of in H. simpl in H. by rewrite H.
Qed.

Lemma fetch_chunk_fatal c acc st code body :
  server env (request_of ticker c) (attempts (request_of ticker c) st)
  = Response code body →
  code ≠ 200 → code ≠ 429 →
  fetch_chunk env ticker c acc st
  = (acc, set_stats call_failed
            (requests_get env (request_of ticker c) (set_stats api_call st)).2).
Proof.
  intros H H200 H429. unfold fetch_chunk, requests_get, attempts in *. simpl.
  unfold request_of in H. simpl in H. rewrite H.
  apply Z.eqb_neq in H200, H429. by rewrite H200, H429.
Qed.

Lemma fetch_chunk_empty c acc st :
  (server env (request_of ticker c) (attempts (request_of ticker c) st)
     = Response 200 (Json None)
   ∨ server env (request_of ticker c) (attempts (request_of ticker c) st)
     = Response 200 (Json (Some []))) →
  fetch_chunk env ticker c acc st
  = (acc, set_stats call_succeeded
            (requests_get env (request_of ticker c) (set_stats api_call st)).2).
Proof.
  intros H. unfold fetch_chunk, requests_get, attempts in *. simpl.
  unfold request_of in H. simpl in H. by destruct H as [-> | ->].
Qed.

Lemma fetch_chunks_cons c cs acc st :
  fetch_chunks env ticker (c :: cs) acc st
  = fetch_chunks env ticker cs (fetch_chunk env ticker c acc st).1
                 (fetch_chunk env ticker c acc st).2.
Proof. simpl. by destruct (fetch_chunk env ticker c acc st). Qed.

Lemma fetch_chunks_app cs1 cs2 acc st :
  fetch_chunks env ticker (cs1 ++ cs2) acc st
  = fetch_chunks env ticker cs2 (fetch_chunks env ticker cs1 acc st).1
                 (fetch_chunks env ticker cs1 acc st).2.
Proof.
  revert acc st. induction cs1 as [|c cs1 IH]; intros acc st; [done|].
  rewrite <- app_comm_cons, !fetch_chunks_cons. apply IH.
Qed.

Lemma fetch_chunks_store cs acc st :
  same_store st (fetch_chunks env ticker cs acc st).2.
Proof.
  revert acc st. induction cs as [|c cs IH]; intros acc st.
  - by repeat split.
  - rewrite fetch_chunks_cons.
    destruct (fetch_chunk_store c acc st) as (H1 & H2 & H3).
    destruct (IH (fetch_chunk env ticker c acc st).1
                 (fetch_chunk env ticker c acc st).2) as (K1 & K2 & K3).
    repeat split; congruence.
Qed.

(** Exactly one request per chunk, in the order of the chunks: no chunk
    is asked for twice, whatever the replies are. *)
Lemma fetch_chunks_sent cs acc st :
  sent (fetch_chunks env ticker cs acc st).2
  = sent st ++ map (request_of ticker) cs.
Proof.
  revert acc st. induction cs as [|c cs IH]; intros acc st.
  - simpl. by rewrite app_nil_r.
  - rewrite fetch_chunks_cons, IH, fetch_chunk_sent. simpl.
    by rewrite <- app_assoc.
Qed.

Lemma fetch_chunks_stats cs acc st :
  stats_le (stats st) (stats (fetch_chunks env ticker cs acc st).2).
Proof.
  revert acc st. induction cs as [|c cs IH]; intros acc st.
  - unfold stats_le; simpl; lia.
  - rewrite fetch_chunks_cons.
    pose proof (fetch_chunk_stats c acc st) as H1.
    pose proof (IH (fetch_chunk env ticker c acc st).1
                   (fetch_chunk env ticker c acc st).2) as H2.
    unfold stats_le in *. lia.
Qed.

Lemma fetch_chunks_acc cs acc st :
  fetch_chunks env ticker cs acc st
  = (acc ++ (fetch_chunks env ticker cs [] st).1,
     (fetch_chunks env ticker cs [] st).2).
Proof.
  revert acc st. induction cs as [|c cs IH]; intros acc st.
  - simpl. by rewrite app_nil_r.
  - rewrite !fetch_chunks_cons. rewrite (fetch_chunk_acc c acc st). simpl.
    rewrite IH. rewrite (IH (fetch_chunk env ticker c [] st).1).
    simpl. by rewrite app_assoc.
Qed.

(** A frame once collected is still there at the end of the loop. *)
Lemma fetch_chunks_keeps cs acc st df :
  df ∈ acc → df ∈ (fetch_chunks env ticker cs acc st).1.
Proof.
  intros H. rewrite fetch_chunks_acc. simpl. set_solver.
Qed.

(** The rows of a chunk that the service answers with status 200 are
    collected, wherever the chunk stands in the list. *)
Lemma fetch_chunks_collects cs acc st c row rows :
  c ∈ cs →
  (∀ n, server env (request_of ticker c) n = Response 200 (Json (Some (row :: rows)))) →
  (row :: rows) ∈ (fetch_chunks env ticker cs acc st).1.
Proof.
  intros Hin Hsrv. revert acc st.
  induction cs as [|c' cs IH]; intros acc st; [by apply elem_of_nil in Hin|].
  rewrite fetch_chunks_cons.
  apply elem_of_cons in Hin as [<-|Hin]; [|by apply IH].
  apply fetch_chunks_keeps.
  rewrite (fetch_chunk_rows c acc st row rows) by apply Hsrv.
  set_solver.
Qed.

(** When every chunk comes back empty, nothing is collected and every call
    counts as a success. *)
Lemma fetch_chunks_all_empty cs acc st :
  (∀ c n, c ∈ cs →
     server env (request_of ticker c) n = Response 200 (Json None)
     ∨ server env (request_of ticker c) n = Response 200 (Json (Some []))) →
  (fetch_chunks env ticker cs acc st).1 = acc
  ∧ successful_calls (stats (fetch_chunks env ticker cs acc st).2)
    = successful_calls (stats st) + Z.of_nat (length cs)
  ∧ failed_calls (stats (fetch_chunks env ticker cs acc st).2)
    = failed_calls (stats st).
Proof.
  revert acc st. induction cs as [|c cs IH]; intros acc st Hall.
  - simpl. repeat split; lia.
  - rewrite fetch_chunks_cons.
    rewrite (fetch_chunk_empty c acc st) by (apply Hall; set_solver).
    simpl.
    edestruct IH as (-> & -> & ->); [intros; apply Hall; set_solver|].
    simpl. repeat split; lia.
Qed.

(** When every chunk is refused with a status other than 200 and 429,
    nothing is collected. *)
Lemma fetch_chunks_all_fatal cs acc st :
  (∀ c n, c ∈ cs → ∃ code body,
     server env (request_of ticker c) n = Response code body
     ∧ code ≠ 200 ∧ code ≠ 429) →
  (fetch_chunks env ticker cs acc st).1 = acc
  ∧ failed_calls (stats (fetch_chunks env ticker cs acc st).2)
    = failed_calls (stats st) + Z.of_nat (length cs)
  ∧ successful_calls (stats (fetch_chunks env ticker cs acc st).2)
    = successful_calls (stats st).
Proof.
  revert acc st. induction cs as [|c cs IH]; intros acc st Hall.
  - simpl. repeat split; lia.
  - rewrite fetch_chunks_cons.
    destruct (Hall c (attempts (request_of ticker c) st)) as (code & body & Hr & H1 & H2);
      [set_solver|].
    rewrite (fetch_chunk_fatal c acc st code body) by done.
    simpl.
    edestruct IH as (-> & -> & ->); [intros; apply Hall; set_solver|].
    simpl. repeat split; lia.
Qed.

End ChunkLoop.

(** ** The per-ticker task as a whole *)

Section Task.

Context (env : Env) (ticker : string).

Lemma save_progress_marks st :
  ticker ∈ completed_tickers (save_progress env ticker st).2
  ∧ completed_tickers (save_progress env ticker st).2
    = {[ticker]} ∪ completed_tickers st
  ∧ csv_files (save_progress env ticker st).2 = csv_files st
  ∧ sent (save_progress env ticker st).2 = sent st.
Proof.
  unfold save_progress. destruct (progress_writable env); simpl;
    repeat split; set_solver.
Qed.

(** A write that succeeds leaves the whole set, the new ticker included,
    in the progress file. *)
Lemma save_progress_ok st u st' :
  save_progress env ticker st = (Ok u, st') →
  progress_writable env = true
  ∧ progress_file st' = Stored (completed_tickers st') (stats st')
  ∧ ticker ∈ load_progress (progress_file st').
Proof.
  unfold save_progress. destruct (progress_writable env); intros H;
    simplify_eq/=. repeat split. set_solver.
Qed.

Lemma save_progress_writable st :
  progress_writable env = true →
  (save_progress env ticker st).1 = Ok tt.
Proof. unfold save_progress. by intros ->. Qed.

Lemma to_csv_ok df st u st' :
  to_csv env ticker df st = (Ok u, st') →
  csv_files st' = <[ticker := df]> (csv_files st)
  ∧ completed_tickers st' = completed_tickers st
  ∧ sent st' = sent st
  ∧ stats st' = stats st.
Proof.
  unfold to_csv. destruct (csv_writable env ticker); intros H; by simplify_eq/=.
Qed.

Lemma to_csv_raise df st x st' :
  to_csv env ticker df st = (Raise x, st') → st' = st.
Proof.
  unfold to_csv. destruct (csv_writable env ticker); intros H; by simplify_eq/=.
Qed.

(** The three ways through [download_ticker_data]. *)
Lemma download_ticker_data_skip s e st :
  ticker ∈ completed_tickers st →
  download_ticker_data env ticker s e st = (Ok true, st).
Proof. intros H. unfold download_ticker_data. by rewrite bool_decide_eq_true_2. Qed.

Lemma download_ticker_data_file s e st :
  ticker ∉ completed_tickers st →
  is_Some (csv_files st !! ticker) →
  download_ticker_data env ticker s e st
  = match save_progress env ticker st with
    | (Raise x, st) => (Raise x, st)
    | (Ok _, st) => (Ok true, st)
    end.
Proof.
  intros H1 H2. unfold download_ticker_data.
  by rewrite bool_decide_eq_false_2, bool_decide_eq_true_2.
Qed.

Lemma download_ticker_data_fetch s e st cs :
  ticker ∉ completed_tickers st →
  csv_files st !! ticker = None →
  generate_date_chunks s e = Ok cs →
  download_ticker_data env ticker s e st
  = let all_data := (fetch_chunks env ticker cs [] st).1 in
    let st1 := (fetch_chunks env ticker cs [] st).2 in
    match all_data with
    | _ :: _ =>
        match to_csv env ticker (drop_duplicates (sort_values (concat all_data))) st1 with
        | (Raise x, st2) => (Raise x, st2)
        | (Ok _, st2) =>
            match save_progress env ticker st2 with
            | (Raise x, st3) => (Raise x, st3)
            | (Ok _, st3) => (Ok true, st3)
            end
        end
    | [] =>
        match save_progress env ticker st1 with
        | (Raise x, st3) => (Raise x, st3)
        | (Ok _, st3) => (Ok true, st3)
        end
    end.
Proof.
  intros H1 H2 H3. unfold download_ticker_data.
  rewrite bool_decide_eq_false_2 by done.
  rewrite bool_decide_eq_false_2 by (rewrite H2; by intros [? ?]).
  rewrite H3. by destruct (fetch_chunks env ticker cs [] st).
Qed.

Lemma download_ticker_data_bad_dates s e st x :
  ticker ∉ completed_tickers st →
  csv_files st !! ticker = None →
  generate_date_chunks s e = Raise x →
  download_ticker_data env ticker s e st = (Raise x, st).
Proof.
  intros H1 H2 H3. unfold download_ticker_data.
  rewrite bool_decide_eq_false_2 by done.
  rewrite bool_decide_eq_false_2 by (rewrite H2; by intros [? ?]).
  by rewrite H3.
Qed.

(** The task only talks to the service about its own ticker. *)
Lemma download_ticker_data_sent s e st :
  ∃ new, sent (download_ticker_data env ticker s e st).2 = sent st ++ new
         ∧ ∀ r, r ∈ new → req_ticker r = ticker.
Proof.
  destruct (decide (ticker ∈ completed_tickers st)) as [Hc|Hc].
  { rewrite download_ticker_data_skip by done. exists []. simpl.
    rewrite app_nil_r. set_solver. }
  destruct (csv_files st !! ticker) as [old|] eqn:Hf.
  { rewrite download_ticker_data_file by (rewrite ?Hf; eauto).
    exists []. rewrite app_nil_r. split; [|set_solver].
    pose proof (save_progress_marks st) as (_ & _ & _ & Hs).
    by destruct (save_progress env ticker st) as [[?|?] ?]. }
  destruct (generate_date_chunks s e) as [cs|x] eqn:Hg.
  2:{ rewrite (download_ticker_data_bad_dates s e st x) by done.
      exists []. simpl. rewrite app_nil_r. set_solver. }
  rewrite (download_ticker_data_fetch s e st cs) by done.
  exists (map (request_of ticker) cs). split.
  2:{ intros r Hr. apply list_elem_of_fmap in Hr as (c & -> & _). done. }
  pose proof (fetch_chunks_sent env ticker cs [] st) as Hsent.
  cbv zeta.
  destruct (fetch_chunks env ticker cs [] st) as [all_data st1]. simpl in *.
  destruct all_data as [|df all_data].
  - pose proof (save_progress_marks st1) as (_ & _ & _ & Hs).
    destruct (save_progress env ticker st1) as [[?|?] ?]; simpl in *; congruence.
  - destruct (to_csv env ticker _ st1) as [[u|x] st2] eqn:Hcsv.
    + apply to_csv_ok in Hcsv as (_ & _ & Hs2 & _).
      pose proof (save_progress_marks st2) as (_ & _ & _ & Hs).
      destruct (save_progress env ticker st2) as [[?|?] ?]; simpl in *; congruence.
    + apply to_csv_raise in Hcsv as ->. done.
Qed.

End Task.

(** ** Resuming: completed tickers are left alone *)

Lemma work_queue_spec tickers st t :
  t ∈ work_queue tickers st ↔ t ∈ tickers ∧ t ∉ completed_tickers st.
Proof. unfold work_queue. rewrite list_elem_of_filter. tauto. Qed.

(** The jobs of a queue only send requests for the tickers of the queue. *)
Lemma run_jobs_sent env queue st :
  ∃ new, sent (run_jobs env queue st) = sent st ++ new
         ∧ ∀ r, r ∈ new → req_ticker r ∈ queue.
Proof.
  revert st. induction queue as [|t queue IH]; intros st; simpl.
  - exists []. rewrite app_nil_r. set_solver.
  - destruct (download_ticker_data_sent env t DEFAULT_START DEFAULT_END st)
      as (new1 & H1 & K1).
    destruct (IH (download_ticker_data env t DEFAULT_START DEFAULT_END st).2)
      as (new2 & H2 & K2).
    exists (new1 ++ new2). rewrite H2, H1, app_assoc. split; [done|].
    intros r [Hr|Hr]%elem_of_app.
    + rewrite (K1 r Hr). set_solver.
    + specialize (K2 r Hr). set_solver.
Qed.

(** C9. A ticker that is in the completed set when a run starts gets no
    HTTP request during the run: it is not in the work queue, every
    request that [download_all_data] adds to those already sent is for
    another ticker, and [download_ticker_data], if called for it, returns
    [True] at once and leaves the state, the sent requests included, as it
    was. *)
Theorem C9_completed_ticker_gets_no_request
    (env : Env) (tickers : list string) (ticker : string) (st : State) :
  ticker ∈ completed_tickers st →
  (ticker ∉ work_queue tickers st)
  ∧ (∃ new, sent (download_all_data env tickers st) = sent st ++ new
            ∧ ∀ r, r ∈ new → req_ticker r ≠ ticker)
  ∧ ∀ start_date end_date,
      download_ticker_data env ticker start_date end_date st = (Ok true, st).
Proof.
  intros Hdone.
  assert (ticker ∉ work_queue tickers st) as Hq.
  { rewrite work_queue_spec. tauto. }
  split; [done|]. split.
  - unfold download_all_data. case_match.
    + exists []. rewrite app_nil_r. set_solver.
    + destruct (run_jobs_sent env (work_queue tickers st) st) as (new & H1 & H2).
      exists new. split; [done|]. intros r Hr Heq. apply Hq. rewrite <- Heq. by apply H2.
  - intros s e. by apply download_ticker_data_skip.
Qed.

(** The same for a process that starts over the files of an earlier run in
    which the ticker was written to the progress file. *)
Lemma C9_witness :
  let st := restart (download_ticker_data (writable quiet_server) ABC
                       "2024-01-01" "2024-03-10" fresh).2 in
  ABC ∈ completed_tickers st
  ∧ (ABC ∉ work_queue [AAPL; ABC; MSFT] st)
  ∧ (∃ new, sent (download_all_data (writable throttling_server)
                    [AAPL; ABC; MSFT] st) = sent st ++ new
            ∧ ∀ r, r ∈ new → req_ticker r ≠ ABC)
  ∧ ∀ start_date end_date,
      download_ticker_data (writable throttling_server) ABC start_date end_date st
      = (Ok true, st).
Proof.
  assert (ABC ∈ completed_tickers
            (restart (download_ticker_data (writable quiet_server) ABC
                        "2024-01-01" "2024-03-10" fresh).2)) as H.
  { apply (bool_decide_unpack _). vm_compute. exact I. }
  split; [exact H|].
  exact (C9_completed_ticker_gets_no_request (writable throttling_server)
           [AAPL; ABC; MSFT] ABC _ H).
Defined.

(** ** What a finished task leaves behind *)

(** A ticker that is in the progress file is skipped by any later process,
    whatever the service would answer. *)
Lemma restart_skips env ticker s e st :
  ticker ∈ load_progress (progress_file st) →
  download_ticker_data env ticker s e (restart st) = (Ok true, restart st).
Proof. intros H. by apply download_ticker_data_skip. Qed.

(** Every return of the task, the skip apart, goes through a successful
    [_save_progress]. *)
Lemma download_ticker_data_returns env ticker s e st b st' :
  download_ticker_data env ticker s e st = (Ok b, st') →
  b = true
  ∧ (ticker ∈ completed_tickers st ∧ st' = st
     ∨ (ticker ∉ completed_tickers st)
       ∧ completed_tickers st' = {[ticker]} ∪ completed_tickers st
       ∧ progress_file st' = Stored (completed_tickers st') (stats st')).
Proof.
  intros Hrun.
  destruct (decide (ticker ∈ completed_tickers st)) as [Hc|Hc].
  { rewrite download_ticker_data_skip in Hrun by done. simplify_eq. tauto. }
  assert (∀ st0, completed_tickers st0 = completed_tickers st →
            match save_progress env ticker st0 with
            | (Raise x, st3) => (Raise x, st3)
            | (Ok _, st3) => (Ok true, st3)
            end = (Ok b, st') →
            b = true
            ∧ (ticker ∈ completed_tickers st ∧ st' = st
               ∨ (ticker ∉ completed_tickers st)
                 ∧ completed_tickers st' = {[ticker]} ∪ completed_tickers st
                 ∧ progress_file st' = Stored (completed_tickers st') (stats st')))
    as Hsave.
  { intros st0 Hsame Hm.
    pose proof (save_progress_marks env ticker st0) as (_ & Hset & _).
    destruct (save_progress env ticker st0) as [[u|x] st3] eqn:Hs; [|done].
    apply save_progress_ok in Hs as (_ & Hfile & _). simplify_eq/=.
    split; [done|]. right. simpl in Hset. rewrite Hsame in Hset. by repeat split. }
  destruct (csv_files st !! ticker) as [old|] eqn:Hf.
  { rewrite download_ticker_data_file in Hrun by (rewrite ?Hf; eauto).
    by apply (Hsave st). }
  destruct (generate_date_chunks s e) as [cs|x] eqn:Hg.
  2:{ by rewrite (download_ticker_data_bad_dates env ticker s e st x) in Hrun. }
  rewrite (download_ticker_data_fetch env ticker s e st cs) in Hrun by done.
  cbv zeta in Hrun.
  destruct (fetch_chunks_store env ticker cs [] st) as (Hsame & _ & _).
  destruct (fetch_chunks env ticker cs [] st) as [all_data st1]. simpl in *.
  destruct all_data as [|df all_data]; [by apply (Hsave st1)|].
  destruct (to_csv env ticker _ st1) as [[u|x] st2] eqn:Hcsv; [|done].
  apply to_csv_ok in Hcsv as (_ & Hsame2 & _).
  apply (Hsave st2); congruence.
Qed.

(** C10. [download_ticker_data] never returns [False]. When it returns, it
    returns [True], and either the ticker was completed before and nothing
    changed, or the ticker has been added to the completed set and the set
    has been written to the progress file, so that a later process skips
    the ticker without a request. This includes the ticker whose every
    chunk was refused with a status other than 200 and 429: with a
    writable progress file the task returns [True], writes no CSV file and
    persists the ticker as completed. *)
Theorem C10_download_ticker_data_never_returns_false
    (env : Env) (ticker start_date end_date : string) (st : State) :
  let r := (download_ticker_data env ticker start_date end_date st).1 in
  let st' := (download_ticker_data env ticker start_date end_date st).2 in
  r ≠ Ok false
  ∧ (∀ b, r = Ok b →
       b = true
       ∧ (ticker ∈ completed_tickers st ∧ st' = st
          ∨ (ticker ∉ completed_tickers st)
            ∧ completed_tickers st' = {[ticker]} ∪ completed_tickers st
            ∧ ticker ∈ load_progress (progress_file st')
            ∧ ∀ env2 s2 e2,
                download_ticker_data env2 ticker s2 e2 (restart st')
                = (Ok true, restart st')))
  ∧ (∀ cs,
       ticker ∉ completed_tickers st →
       csv_files st !! ticker = None →
       generate_date_chunks start_date end_date = Ok cs →
       (∀ c n, c ∈ cs → ∃ code body,
          server env (request_of ticker c) n = Response code body
          ∧ code ≠ 200 ∧ code ≠ 429) →
       progress_writable env = true →
       r = Ok true
       ∧ csv_files st' = csv_files st
       ∧ ticker ∈ load_progress (progress_file st')
       ∧ failed_calls (stats st') = failed_calls (stats st) + Z.of_nat (length cs)).
Proof.
  intros r st'.
  assert (∀ b, r = Ok b →
       b = true
       ∧ (ticker ∈ completed_tickers st ∧ st' = st
          ∨ (ticker ∉ completed_tickers st)
            ∧ completed_tickers st' = {[ticker]} ∪ completed_tickers st
            ∧ ticker ∈ load_progress (progress_file st')
            ∧ ∀ env2 s2 e2,
                download_ticker_data env2 ticker s2 e2 (restart st')
                = (Ok true, restart st'))) as Hret.
  { intros b Hb.
    destruct (download_ticker_data_returns env ticker start_date end_date st b st')
      as (-> & [[? ?]|(? & Hset & Hfile)]).
    { subst r st'. destruct (download_ticker_data _ _ _ _ _); simpl in *; congruence. }
    { tauto. }
    split; [done|]. right.
    assert (ticker ∈ load_progress (progress_file st')) as Hin.
    { rewrite Hfile. simpl. rewrite Hset. set_solver. }
    repeat split; try done. intros. by apply restart_skips. }
  split; [|split; [exact Hret|]].
  - intros Hfalse. by destruct (Hret false Hfalse).
  - intros cs Hc Hf Hg Hall Hw. subst r st'.
    rewrite (download_ticker_data_fetch env ticker start_date end_date st cs) by done.
    cbv zeta.
    destruct (fetch_chunks_all_fatal env ticker cs [] st Hall) as (Hacc & Hfail & _).
    destruct (fetch_chunks_store env ticker cs [] st) as (_ & Hcsv & _).
    destruct (fetch_chunks env ticker cs [] st) as [all_data st1]. simpl in *.
    subst all_data.
    unfold save_progress. rewrite Hw. simpl.
    repeat split; try done. set_solver.
Qed.

(** The four returning paths, run: the skip, the file found on disk, rows
    saved, and nothing collected because every chunk was refused. *)
Lemma C10_witness :
  (download_ticker_data (writable forbidding_server) ABC "2024-01-01" "2024-03-10"
     fresh).1 = Ok true
  ∧ (download_ticker_data (writable forbidding_server) ABC "2024-01-01" "2024-03-10"
       fresh).1 ≠ Ok false
  ∧ csv_files (download_ticker_data (writable forbidding_server) ABC "2024-01-01"
                 "2024-03-10" fresh).2 = csv_files fresh
  ∧ ABC ∈ load_progress
            (progress_file
               (download_ticker_data (writable forbidding_server) ABC "2024-01-01"
                  "2024-03-10" fresh).2).
Proof.
  pose proof (C10_download_ticker_data_never_returns_false
                (writable forbidding_server) ABC "2024-01-01" "2024-03-10" fresh)
    as (Hnf & _ & Hfatal).
  destruct (Hfatal [("2024-01-01", "2024-02-15"); ("2024-02-16", "2024-03-10")]%string)
    as (H1 & H2 & H3 & _).
  - apply (bool_decide_unpack _). vm_compute. exact I.
  - reflexivity.
  - vm_compute. reflexivity.
  - intros c n _. exists 403, Unparsable. repeat split; discriminate.
  - reflexivity.
  - repeat split; assumption.
Defined.

(** C8. A ticker whose every chunk comes back with status 200 and no rows
    ends completed and empty: the task returns [True], the CSV files are
    what they were (none is created for the ticker), every call counted as
    a success, the ticker is in the completed set and in the progress file,
    and a later process neither queues it nor sends a request for it. The
    FX writer [save_month_parquet] likewise writes nothing for an empty
    frame. *)
Theorem C8_all_chunks_empty_completes_without_file
    (env : Env) (ticker start_date end_date : string) (st : State)
    (cs : list chunk) :
  ticker ∉ completed_tickers st →
  csv_files st !! ticker = None →
  generate_date_chunks start_date end_date = Ok cs →
  (∀ c n, c ∈ cs →
     server env (request_of ticker c) n = Response 200 (Json None)
     ∨ server env (request_of ticker c) n = Response 200 (Json (Some []))) →
  progress_writable env = true →
  let r := (download_ticker_data env ticker start_date end_date st).1 in
  let st' := (download_ticker_data env ticker start_date end_date st).2 in
  r = Ok true
  ∧ csv_files st' = csv_files st
  ∧ csv_files st' !! ticker = None
  ∧ successful_calls (stats st') = successful_calls (stats st) + Z.of_nat (length cs)
  ∧ ticker ∈ completed_tickers st'
  ∧ ticker ∈ load_progress (progress_file st')
  ∧ (∀ tickers, ticker ∉ work_queue tickers (restart st'))
  ∧ (∀ env2 s2 e2,
       download_ticker_data env2 ticker s2 e2 (restart st') = (Ok true, restart st'))
  ∧ (∀ p y m files, FX.save_month_parquet [] p y m files = files).
Proof.
  intros Hc Hf Hg Hall Hw r st'. subst r st'.
  rewrite (download_ticker_data_fetch env ticker start_date end_date st cs) by done.
  cbv zeta.
  destruct (fetch_chunks_all_empty env ticker cs [] st Hall) as (Hacc & Hsucc & _).
  destruct (fetch_chunks_store env ticker cs [] st) as (_ & Hcsv & _).
  destruct (fetch_chunks env ticker cs [] st) as [all_data st1]. simpl in *.
  subst all_data.
  unfold save_progress. rewrite Hw. simpl.
  assert (ticker ∈ ({[ticker]} ∪ completed_tickers st1 : gset string)) as Hin
    by set_solver.
  split_and!; try done.
  - by rewrite Hcsv.
  - intros tickers. rewrite work_queue_spec. simpl. tauto.
  - intros. by apply restart_skips.
Qed.

Lemma C8_witness :
  let r := (download_ticker_data (writable quiet_server) ABC
              "2024-01-01" "2024-03-10" fresh).1 in
  let st' := (download_ticker_data (writable quiet_server) ABC
                "2024-01-01" "2024-03-10" fresh).2 in
  r = Ok true
  ∧ csv_files st' !! ABC = None
  ∧ ABC ∈ load_progress (progress_file st')
  ∧ download_ticker_data (writable throttling_server) ABC "2024-01-01" "2024-03-10"
      (restart st') = (Ok true, restart st').
Proof.
  destruct (C8_all_chunks_empty_completes_without_file
              (writable quiet_server) ABC "2024-01-01" "2024-03-10" fresh
              [("2024-01-01", "2024-02-15"); ("2024-02-16", "2024-03-10")]%string)
    as (H1 & _ & H3 & _ & _ & H6 & _ & H8 & _).
  - apply (bool_decide_unpack _). vm_compute. exact I.
  - reflexivity.
  - vm_compute. reflexivity.
  - intros c n _. left. reflexivity.
  - reflexivity.
  - cbv zeta. split; [exact H1|]. split; [exact H3|]. split; [exact H6|apply H8].
Defined.

(** ** Completion and the output file *)




(** ** Chunk failures and the rows of the other chunks *)

Lemma elem_of_concat (row : Bar) (frames : list (list Bar)) :
  row ∈ concat frames ↔ ∃ df, df ∈ frames ∧ row ∈ df.
Proof.
  induction frames as [|df frames IH]; simpl.
  - split; [by intros ?%elem_of_nil|]. by intros (? & ?%elem_of_nil & _).
  - rewrite elem_of_app, IH. split.
    + intros [H|(df' & H1 & H2)]; [exists df|exists df']; set_solver.
    + intros (df' & [->|H1]%elem_of_cons & H2); [by left|right; eauto].
Qed.

(** What the task writes when rows were collected and the disk takes them. *)
Lemma download_ticker_data_writes env ticker s e st cs :
  ticker ∉ completed_tickers st →
  csv_files st !! ticker = None →
  generate_date_chunks s e = Ok cs →
  (fetch_chunks env ticker cs [] st).1 ≠ [] →
  csv_writable env ticker = true →
  csv_files (download_ticker_data env ticker s e st).2 !! ticker
  = Some (drop_duplicates (sort_values (concat (fetch_chunks env ticker cs [] st).1)))
  ∧ (progress_writable env = true →
     (download_ticker_data env ticker s e st).1 = Ok true).
Proof.
  intros Hc Hf Hg Hne Hw.
  rewrite (download_ticker_data_fetch env ticker s e st cs) by done.
  cbv zeta.
  destruct (fetch_chunks env ticker cs [] st) as [all_data st1]. simpl in *.
  destruct all_data as [|df all_data]; [done|].
  unfold to_csv. rewrite Hw.
  unfold save_progress. destruct (progress_writable env); simpl;
    rewrite lookup_insert_eq; by split.
Qed.

(** C6. A chunk that the service refuses with a status other than 200 and
    429 does not end the task. The refused chunk costs one request and one
    failed call and adds no frame, in whatever state the loop reaches it;
    every chunk after it is requested in the same run; and with writable
    files the task returns [True] and each later chunk that is answered
    with rows has all its rows in the file written for the ticker. *)
Theorem C6_fatal_chunk_does_not_stop_later_chunks
    (env : Env) (ticker start_date end_date : string) (st : State)
    (pre post : list chunk) (c : chunk) (code : Z) (body : Body) :
  ticker ∉ completed_tickers st →
  csv_files st !! ticker = None →
  generate_date_chunks start_date end_date = Ok (pre ++ c :: post) →
  (∀ n, server env (request_of ticker c) n = Response code body) →
  code ≠ 200 → code ≠ 429 →
  csv_writable env ticker = true →
  progress_writable env = true →
  let r := (download_ticker_data env ticker start_date end_date st).1 in
  let st' := (download_ticker_data env ticker start_date end_date st).2 in
  r = Ok true
  ∧ (∀ acc sti,
       fetch_chunk env ticker c acc sti
       = (acc, set_stats call_failed
                 (requests_get env (request_of ticker c) (set_stats api_call sti)).2))
  ∧ failed_calls (stats st) + 1 <= failed_calls (stats st')
  ∧ sent st' = sent st ++ map (request_of ticker) pre
               ++ request_of ticker c :: map (request_of ticker) post
  ∧ (∀ c' row rows,
       c' ∈ post →
       (∀ n, server env (request_of ticker c') n
             = Response 200 (Json (Some (row :: rows)))) →
       ∃ df, csv_files st' !! ticker = Some df ∧ ∀ x, x ∈ row :: rows → x ∈ df).
Proof.
  intros Hc Hf Hg Hsrv H200 H429 Hwc Hwp r st'.
  assert (∀ acc sti,
       fetch_chunk env ticker c acc sti
       = (acc, set_stats call_failed
                 (requests_get env (request_of ticker c) (set_stats api_call sti)).2))
    as Hstep.
  { intros acc sti. by apply (fetch_chunk_fatal env ticker c acc sti code body). }
  pose proof (download_ticker_data_fetch env ticker start_date end_date st
                (pre ++ c :: post) Hc Hf Hg) as Hrun.
  cbv zeta in Hrun.
  pose proof (fetch_chunks_sent env ticker (pre ++ c :: post) [] st) as Hsent.
  rewrite map_app in Hsent. simpl in Hsent.
  assert (failed_calls (stats st) + 1
          <= failed_calls (stats (fetch_chunks env ticker (pre ++ c :: post) [] st).2))
    as Hfailed.
  { rewrite fetch_chunks_app, fetch_chunks_cons, Hstep. simpl.
    pose proof (fetch_chunks_stats env ticker pre [] st) as (_ & _ & H1).
    match goal with |- _ <= failed_calls (stats (fetch_chunks _ _ _ ?a ?s).2) =>
      pose proof (fetch_chunks_stats env ticker post a s) as (_ & _ & H2) end.
    simpl in H2. lia. }
  assert (∀ c' row rows,
       c' ∈ post →
       (∀ n, server env (request_of ticker c') n
             = Response 200 (Json (Some (row :: rows)))) →
       (row :: rows) ∈ (fetch_chunks env ticker (pre ++ c :: post) [] st).1)
    as Hrows.
  { intros c' row rows Hin Hok.
    apply (fetch_chunks_collects env ticker _ [] st c'); [set_solver|done]. }
  subst r st'. rewrite Hrun. clear Hrun.
  destruct (fetch_chunks env ticker (pre ++ c :: post) [] st) as [all_data st1].
  simpl in *.
  unfold to_csv, save_progress. rewrite Hwc, Hwp.
  destruct all_data as [|df all_data]; simpl.
  - split_and!; try done.
    intros c' row rows Hin Hok. exfalso.
    by eapply (not_elem_of_nil (row :: rows)), Hrows.
  - split_and!; try done.
    intros c' row rows Hin Hok. eexists. rewrite lookup_insert_eq. split; [done|].
    intros x Hx. rewrite elem_of_drop_duplicates, elem_of_sort_values.
    change (x ∈ concat (df :: all_data)). apply elem_of_concat.
    exists (row :: rows). split; [by eapply Hrows|done].
Qed.

Lemma C6_witness :
  let st' := (download_ticker_data (writable refusing_server) ABC
                "2024-01-01" "2024-05-10" fresh).2 in
  (download_ticker_data (writable refusing_server) ABC
     "2024-01-01" "2024-05-10" fresh).1 = Ok true
  ∧ failed_calls (stats fresh) + 1 <= failed_calls (stats st')
  ∧ ∃ df, csv_files st' !! ABC = Some df ∧ ∀ x, x ∈ [bar 5000 11] → x ∈ df.
Proof.
  destruct (C6_fatal_chunk_does_not_stop_later_chunks
              (writable refusing_server) ABC "2024-01-01" "2024-05-10" fresh
              [] [("2024-02-16", "2024-04-01"); ("2024-04-02", "2024-05-10")]%string
              ("2024-01-01", "2024-02-15")%string 404 Unparsable)
    as (H1 & _ & H3 & _ & H5).
  - apply (bool_decide_unpack _). vm_compute. exact I.
  - reflexivity.
  - vm_compute. reflexivity.
  - intros n. reflexivity.
  - discriminate.
  - discriminate.
  - reflexivity.
  - reflexivity.
  - cbv zeta. split; [exact H1|]. split; [exact H3|].
    apply (H5 ("2024-04-02", "2024-05-10")%string (bar 5000 11) []).
    + apply elem_of_cons. right. apply elem_of_cons. left. reflexivity.
    + intros n. reflexivity.
Defined.

(** ** The rows of the written file *)

Lemma filter_absent (row : Bar) (df : list Bar) :
  row ∉ df → filter (λ x, x = row) df = [].
Proof.
  induction df as [|x df IH]; [done|].
  intros Hnin. rewrite filter_cons. case_decide as Heq.
  - subst x. exfalso. apply Hnin. by left.
  - apply IH. intros Hin. apply Hnin. by right.
Qed.

Lemma NoDup_occurs_once (row : Bar) (df : list Bar) :
  NoDup df → row ∈ df → length (filter (λ x, x = row) df) = 1%nat.
Proof.
  induction 1 as [|x df Hx Hnd IH]; [by intros ?%not_elem_of_nil|].
  intros Hin. rewrite filter_cons. case_decide as Heq.
  - subst x. simpl. by rewrite filter_absent.
  - apply IH. apply elem_of_cons in Hin as [->|Hin]; done.
Qed.

(** C4, as the code has it. When rows were collected and the file can be
    written, the file holds the collected rows sorted by timestamp in
    ascending, not necessarily strict, order, and a row is dropped only
    when it equals an earlier row in every column: the written rows are
    exactly the collected ones, and no written row occurs twice. So a bar
    that two fetches return with the same values is written once. *)
Theorem C4_output_sorted_and_free_of_repeated_rows
    (env : Env) (ticker start_date end_date : string) (st : State)
    (cs : list chunk) :
  ticker ∉ completed_tickers st →
  csv_files st !! ticker = None →
  generate_date_chunks start_date end_date = Ok cs →
  (fetch_chunks env ticker cs [] st).1 ≠ [] →
  csv_writable env ticker = true →
  let collected := concat (fetch_chunks env ticker cs [] st).1 in
  let st' := (download_ticker_data env ticker start_date end_date st).2 in
  ∃ df, csv_files st' !! ticker = Some df
        ∧ df = drop_duplicates (sort_values collected)
        ∧ StronglySorted timestamp_le df
        ∧ NoDup df
        ∧ (∀ row, row ∈ df ↔ row ∈ collected)
        ∧ (∀ row, row ∈ collected → length (filter (λ x, x = row) df) = 1%nat).
Proof.
  intros Hc Hf Hg Hne Hw collected st'.
  destruct (download_ticker_data_writes env ticker start_date end_date st cs)
    as [Hfile _]; try done.
  eexists. split; [exact Hfile|]. split; [done|].
  assert (∀ row, row ∈ drop_duplicates (sort_values collected) ↔ row ∈ collected)
    as Hsame.
  { intros row. by rewrite elem_of_drop_duplicates, elem_of_sort_values. }
  split_and!.
  - apply drop_duplicates_sorted, sort_values_sorted.
  - apply NoDup_drop_duplicates.
  - exact Hsame.
  - intros row Hrow. apply NoDup_occurs_once; [apply NoDup_drop_duplicates|].
    by apply Hsame.
Qed.

(** Two chunks that share one bar, the same in both: it is written once. *)
Lemma C4_witness :
  csv_files (download_ticker_data (writable overlapping_server) ABC
               "2024-01-01" "2024-03-10" fresh).2 !! ABC
  = Some [bar 1000 11; bar 2000 12; bar 3000 14].
Proof.
  destruct (C4_output_sorted_and_free_of_repeated_rows
              (writable overlapping_server) ABC "2024-01-01" "2024-03-10" fresh
              [("2024-01-01", "2024-02-15"); ("2024-02-16", "2024-03-10")]%string)
    as (df & Hfile & Hdf & _).
  - apply (bool_decide_unpack _). vm_compute. exact I.
  - reflexivity.
  - vm_compute. reflexivity.
  - vm_compute. discriminate.
  - reflexivity.
  - rewrite Hfile, Hdf. vm_compute. reflexivity.
Defined.

(** Two chunks that give the timestamp 2000 with two close prices: both
    rows are written, so the timestamps of the file are neither unique nor
    strictly increasing, and neither row has won. *)
Lemma C4_counterexample :
  let st' := (download_ticker_data (writable revising_server) ABC
                "2024-01-01" "2024-03-10" fresh).2 in
  csv_files st' !! ABC
  = Some [bar 1000 11; bar 2000 12; bar 2000 13; bar 3000 14]
  ∧ ¬ NoDup (map timestamp [bar 1000 11; bar 2000 12; bar 2000 13; bar 3000 14])
  ∧ ¬ StronglySorted (λ a b, timestamp a < timestamp b)
        [bar 1000 11; bar 2000 12; bar 2000 13; bar 3000 14].
Proof.
  split; [vm_compute; reflexivity|]. split.
  - intros H. apply NoDup_cons in H as [_ H]. apply NoDup_cons in H as [H _].
    apply H. simpl. set_solver.
  - intros H. apply StronglySorted_cons in H as [_ H].
    apply StronglySorted_cons in H as [H _].
    apply Forall_cons in H as [H _]. simpl in H. lia.
Qed.

(** ** Rate limiting *)

(** C3, run on the code. The service answers the first attempt of the only
    chunk with status 429 and would answer a second attempt with a bar.
    The task sleeps 60 seconds and then goes on to the next chunk, of
    which there is none: one request is sent, no call is counted as
    succeeded or failed, no row is fetched, no file is written, and the
    ticker is recorded as completed. *)
Theorem C3_rate_limited_chunk_is_not_requested_again :
  let req := mkRequest ABC "2024-01-01" "2024-01-31" in
  let r := (download_ticker_data (writable throttling_server) ABC
              "2024-01-01" "2024-01-31" fresh).1 in
  let st' := (download_ticker_data (writable throttling_server) ABC
                "2024-01-01" "2024-01-31" fresh).2 in
  throttling_server req 0 = Response 429 Unparsable
  ∧ throttling_server req 1 = Response 200 (Json (Some [bar 1704186000000 11]))
  ∧ generate_date_chunks "2024-01-01" "2024-01-31"
    = Ok [("2024-01-01", "2024-01-31")]%string
  ∧ r = Ok true
  ∧ sent st' = [req]
  ∧ slept st' = 60
  ∧ stats st' = mkStats 1 0 0 0
  ∧ csv_files st' !! ABC = None
  ∧ ABC ∈ load_progress (progress_file st').
Proof.
  split_and!; vm_compute; reflexivity.
Qed.

(** The same on every input: a chunk answered with status 429 costs one
    request and a sleep of 60 seconds and leaves the frames and the
    counters of succeeded and failed calls as they were; and the loop sends
    one request per chunk, so that no chunk is asked for a second time. *)
Lemma rate_limited_chunk_is_skipped env ticker c cs acc st body :
  (∀ n, server env (request_of ticker c) n = Response 429 body) →
  (fetch_chunk env ticker c acc st).1 = acc
  ∧ slept (fetch_chunk env ticker c acc st).2 = slept st + 60
  ∧ successful_calls (stats (fetch_chunk env ticker c acc st).2)
    = successful_calls (stats st)
  ∧ failed_calls (stats (fetch_chunk env ticker c acc st).2)
    = failed_calls (stats st)
  ∧ sent (fetch_chunks env ticker cs acc st).2
    = sent st ++ map (request_of ticker) cs.
Proof.
  intros H. rewrite (fetch_chunk_rate_limited env ticker c acc st body) by apply H.
  simpl. split_and!; try done. apply fetch_chunks_sent.
Qed.

(** ** The retry wrapper of the FX loader *)

Section Retry.

Import FX.

Local Open Scope Q_scope.

Lemma Qmin_le_l a b : Qmin a b <= a.
Proof.
  unfold Qmin. destruct (Qle_bool a b) eqn:H; [lra|].
  destruct (Qlt_le_dec a b) as [Hlt|Hle]; [|exact Hle].
  apply Qlt_le_weak, Qle_bool_iff in Hlt. congruence.
Qed.

Lemma Qmin_le_r a b : Qmin a b <= b.
Proof.
  unfold Qmin. destruct (Qle_bool a b) eqn:H; [by apply Qle_bool_iff|lra].
Qed.

Lemma Qmin_glb a b c : c <= a → c <= b → c <= Qmin a b.
Proof. unfold Qmin. by destruct (Qle_bool a b). Qed.

Lemma expo_pos n : 0 < expo n.
Proof.
  unfold expo. change 0 with (inject_Z 0). rewrite <- Zlt_Qlt.
  apply Z.pow_pos_nonneg; lia.
Qed.

Lemma expo_doubles n : expo (S n) == 2 * expo n.
Proof.
  unfold expo. rewrite Nat2Z.inj_succ, Z.pow_succ_r by lia.
  rewrite inject_Z_mult. reflexivity.
Qed.

Lemma retried_spec e :
  retried e = true ↔ e = ConnectionError ∨ ∃ status, e = HTTPError status.
Proof.
  destruct e; simpl; split; try done; try (intros [?|[? ?]]; done); eauto.
Qed.

(** The sleeps of one call of the decorated function never add up to more
    than what is left of the 300 seconds when the first attempt starts. *)
Lemma on_exception_total_slept p script tries elapsed :
  Forall (λ a, 0 <= took a) script →
  total_slept (on_exception p script tries elapsed) <= MAX_TIME - elapsed
  ∨ total_slept (on_exception p script tries elapsed) <= 0.
Proof.
  unfold total_slept.
  revert tries elapsed. induction script as [|a rest IH]; intros tries elapsed Hall.
  - right. simpl. lra.
  - apply Forall_cons in Hall as [Ha Hall]. simpl.
    destruct (fetch_body p (listing a)) as [df|e]; [right; simpl; lra|].
    destruct (retried e); simpl; [|right; lra].
    destruct (Qle_bool MAX_TIME elapsed) eqn:Hbudget; simpl; [right; lra|].
    set (seconds := Qmin (draw a * expo tries) (MAX_TIME - elapsed)).
    pose proof (Qmin_le_r (draw a * expo tries) (MAX_TIME - elapsed)) as Hsec.
    fold seconds in Hsec.
    destruct (IH (S tries) (elapsed + took a + seconds) Hall) as [H|H].
    + left. lra.
    + left. lra.
Qed.

(** C5, as the code has it. The wrapper decides by the class of the
    exception alone: a [requests.HTTPError], whatever its status, and a
    [requests.ConnectionError] are retried; any other exception leaves the
    wrapper at once, after one call and without a sleep. A retried
    exception is raised again when 300 seconds or more had elapsed at the
    start of the failed attempt. Otherwise the wrapper sleeps and calls
    again; the sleep is at most what is left of the 300 seconds and, for a
    jitter draw between 0 and 1, at most the exponential wait, which starts
    at one second and doubles with every failure. With calls that take no
    negative time, the sleeps of one fetch add up to at most 300 seconds. *)
Theorem C5_retry_by_exception_class_within_time_budget (p : string) :
  (∀ e, retried e = true ↔ e = ConnectionError ∨ ∃ status, e = HTTPError status)
  ∧ (expo 0 == 1 ∧ ∀ n, expo (S n) == 2 * expo n)
  ∧ (∀ a rest tries elapsed df,
       fetch_body p (listing a) = Ok df →
       on_exception p (a :: rest) tries elapsed = mkRun (Ok df) 1 [])
  ∧ (∀ a rest tries elapsed e,
       listing a = Raise e → retried e = false →
       on_exception p (a :: rest) tries elapsed = mkRun (Raise e) 1 [])
  ∧ (∀ a rest tries elapsed e,
       listing a = Raise e → retried e = true → MAX_TIME <= elapsed →
       on_exception p (a :: rest) tries elapsed = mkRun (Raise e) 1 [])
  ∧ (∀ a rest tries elapsed e,
       listing a = Raise e → retried e = true → elapsed < MAX_TIME →
       ∃ seconds,
         on_exception p (a :: rest) tries elapsed
         = mkRun (returned (on_exception p rest (S tries) (elapsed + took a + seconds)))
                 (S (calls (on_exception p rest (S tries) (elapsed + took a + seconds))))
                 (seconds :: sleeps (on_exception p rest (S tries)
                                       (elapsed + took a + seconds)))
         ∧ seconds <= MAX_TIME - elapsed
         ∧ (0 <= draw a <= 1 → 0 <= seconds <= expo tries))
  ∧ (∀ script,
       Forall (λ a, 0 <= took a) script →
       total_slept (fetch_aggs_month p script) <= MAX_TIME).
Proof.
  split_and!.
  - apply retried_spec.
  - reflexivity.
  - apply expo_doubles.
  - intros a rest tries elapsed df H. simpl. by rewrite H.
  - intros a rest tries elapsed e H Hr. simpl. rewrite H. simpl. by rewrite Hr.
  - intros a rest tries elapsed e H Hr Hb. simpl. rewrite H. simpl. rewrite Hr.
    simpl. apply Qle_bool_iff in Hb. by rewrite Hb.
  - intros a rest tries elapsed e H Hr Hb. simpl. rewrite H. simpl. rewrite Hr.
    simpl.
    destruct (Qle_bool MAX_TIME elapsed) eqn:Hbudget.
    { apply Qle_bool_iff in Hbudget. lra. }
    eexists. split; [reflexivity|]. split; [apply Qmin_le_r|].
    intros [Hd0 Hd1]. pose proof (expo_pos tries) as Hpos. split.
    + apply Qmin_glb; [|lra]. apply Qmult_le_0_compat; lra.
    + eapply Qle_trans; [apply Qmin_le_l|].
      assert (draw a * expo tries <= 1 * expo tries) as Hle
        by (apply Qmult_le_compat_r; lra).
      by rewrite Qmult_1_l in Hle.
  - intros script Hall. unfold fetch_aggs_month.
    destruct (on_exception_total_slept p script 0 0 Hall) as [H|H].
    + lra.
    + unfold MAX_TIME. lra.
Qed.

(** A malformed listing ends the fetch at once; an empty month is
    returned. *)
Lemma C5_witness :
  fetch_aggs_month EURUSD [mkAttempt (Raise ValueError) 1 (1 # 2);
                           mkAttempt (Ok [agg 60000%Z]) 1 (1 # 2)]
  = mkRun (Raise ValueError) 1 []
  ∧ total_slept (fetch_aggs_month EURUSD
                   [mkAttempt (Raise ConnectionError) 1 (1 # 2);
                    mkAttempt (Ok []) 1 (1 # 2)]) <= MAX_TIME.
Proof.
  destruct (C5_retry_by_exception_class_within_time_budget EURUSD)
    as (_ & _ & _ & Hother & _ & _ & Htotal).
  split.
  - apply (Hother (mkAttempt (Raise ValueError) 1 (1 # 2))); reflexivity.
  - apply Htotal. repeat constructor; simpl; discriminate.
Defined.

(** An [HTTPError] that carries status 404 is caught, slept on and retried:
    the fetch makes two calls and returns the rows of the second. *)
Lemma C5_counterexample :
  let run := fetch_aggs_month EURUSD
               [mkAttempt (Raise (HTTPError 404)) 1 (1 # 2);
                mkAttempt (Ok [agg 60000%Z]) 1 (1 # 2)] in
  calls run = 2%nat
  ∧ sleeps run = [1 # 2]
  ∧ returned run = Ok [row_of_agg EURUSD (agg 60000%Z)]
  ∧ returned run ≠ Raise (HTTPError 404).
Proof. vm_compute. split_and!; try reflexivity. discriminate. Qed.

End Retry.

(** ** The date-range chunkers *)

Section Chunkers.

Lemma valid_wf d : valid_date d = true → wf_date d.
Proof. by intros [_ H]%valid_date_spec. Qed.

Lemma dt_min_spec a b :
  valid_date a = true → valid_date b = true →
  valid_date (dt_min a b) = true
  ∧ toordinal (dt_min a b) = Z.min (toordinal a) (toordinal b).
Proof.
  intros Ha Hb. unfold dt_min. destruct (dt_ltb b a) eqn:E.
  - apply dt_ltb_toordinal in E; [|by apply valid_wf..]. split; [done|lia].
  - split; [done|].
    destruct (Z.lt_ge_cases (toordinal b) (toordinal a)) as [H|H]; [|lia].
    apply dt_ltb_toordinal in H; [congruence|by apply valid_wf..].
Qed.

Lemma dt_max_spec a b :
  valid_date a = true → valid_date b = true →
  valid_date (dt_max a b) = true
  ∧ toordinal (dt_max a b) = Z.max (toordinal a) (toordinal b).
Proof.
  intros Ha Hb. unfold dt_max. destruct (dt_ltb a b) eqn:E.
  - apply dt_ltb_toordinal in E; [|by apply valid_wf..]. split; [done|lia].
  - split; [done|].
    destruct (Z.lt_ge_cases (toordinal a) (toordinal b)) as [H|H]; [|lia].
    apply dt_ltb_toordinal in H; [congruence|by apply valid_wf..].
Qed.

Lemma strptime_valid text d : strptime text = Ok d → valid_date d = true.
Proof.
  unfold strptime. intros H.
  repeat (case_match; try discriminate). by simplify_eq.
Qed.

Lemma last_covered_done s e : e <= s <= e + 1 → last_covered s e = s - 1.
Proof.
  intros H. unfold last_covered, CHUNK_DAYS.
  assert (e - s = 0 ∨ e - s = -1) as [Hz|Hz] by lia; rewrite Hz; simpl; lia.
Qed.

Lemma last_covered_short s e : 1 <= e - s <= CHUNK_DAYS → last_covered s e = e.
Proof.
  unfold last_covered, CHUNK_DAYS. intros H.
  destruct (Z.eqb_spec ((e - s) mod (45 + 1)) 0) as [Hz|Hz]; [|done].
  exfalso. revert Hz. Z.div_mod_to_equations. lia.
Qed.

Lemma last_covered_step s e :
  last_covered (s + (CHUNK_DAYS + 1)) e = last_covered s e.
Proof.
  unfold last_covered, CHUNK_DAYS.
  replace (e - (s + (45 + 1))) with (e - s + (-1) * (45 + 1)) by lia.
  by rewrite Z_mod_plus_full.
Qed.

(** The loop of [generate_date_chunks] with enough fuel, away from the end
    of the calendar: it returns, and the chunks it appends tile the days
    from [current] to [last_covered]. *)
Lemma chunk_loop_tiles fuel :
  ∀ current end_ acc,
    valid_date current = true → valid_date end_ = true →
    toordinal end_ + CHUNK_DAYS <= MAXORDINAL →
    toordinal current <= toordinal end_ + 1 →
    (Z.to_nat (toordinal end_ - toordinal current) ≤ fuel)%nat →
    ∃ ds, chunk_loop fuel current end_ acc = Ok (acc ++ map chunk_text ds)
          ∧ tiles (toordinal current) ds
                  (last_covered (toordinal current) (toordinal end_)).
Proof.
  induction fuel as [|fuel IH]; intros current end_ acc Hc He Hmax Hle Hfuel.
  - assert (dt_ltb current end_ = false) as Hlt.
    { destruct (dt_ltb current end_) eqn:E; [|done].
      apply dt_ltb_toordinal in E; [lia|by apply valid_wf..]. }
    exists []. simpl. rewrite Hlt, app_nil_r. split; [done|].
    apply last_covered_done. lia.
  - simpl. destruct (dt_ltb current end_) eqn:Hlt.
    2:{ exists []. rewrite app_nil_r. split; [done|]. simpl.
        apply last_covered_done. split; [|done].
        destruct (Z.lt_ge_cases (toordinal current) (toordinal end_)) as [H|H]; [|lia].
        apply dt_ltb_toordinal in H; [congruence|by apply valid_wf..]. }
    apply dt_ltb_toordinal in Hlt; [|by apply valid_wf..].
    pose proof (toordinal_max current Hc) as Hcr.
    pose proof (toordinal_max end_ He) as Her.
    unfold CHUNK_DAYS in *.
    destruct (add_days_ok current 45 Hc) as (stepped & -> & Hsv & Hso); [lia|].
    simpl.
    destruct (dt_min_spec stepped end_ Hsv He) as [Hmv Hmo].
    destruct (add_days_ok (dt_min stepped end_) 1 Hmv) as (next & -> & Hnv & Hno);
      [lia|].
    simpl.
    destruct (IH next end_ (acc ++ [(strftime current, strftime (dt_min stepped end_))])
                Hnv He Hmax) as (ds & Hrun & Htiles); [lia|lia|].
    exists ((current, dt_min stepped end_) :: ds). split.
    + rewrite Hrun. simpl. by rewrite <- app_assoc.
    + simpl. split_and!; try done; [lia|].
      replace (toordinal (dt_min stepped end_) + 1) with (toordinal next) by lia.
      destruct (Z.le_gt_cases (toordinal end_) (toordinal stepped)) as [Hs|Hs].
      * rewrite (last_covered_short (toordinal current)) by (unfold CHUNK_DAYS; lia).
        rewrite last_covered_done in Htiles by lia.
        replace (toordinal next - 1) with (toordinal end_) in Htiles by lia.
        exact Htiles.
      * rewrite <- (last_covered_step (toordinal current)).
        replace (toordinal current + (CHUNK_DAYS + 1)) with (toordinal next)
          by (unfold CHUNK_DAYS; lia).
        exact Htiles.
Qed.

(** [generate_date_chunks] on a range of valid dates, the end not before
    the start: the chunks are ordered, do not overlap, leave no gap and
    start on the first day; they end on the last day unless the number of
    days from start to end is a multiple of 46, in which case they end on
    the day before it. *)
Lemma generate_date_chunks_tiles start_date end_date start end_ :
  strptime start_date = Ok start →
  strptime end_date = Ok end_ →
  toordinal start <= toordinal end_ →
  toordinal end_ + CHUNK_DAYS <= MAXORDINAL →
  ∃ ds, generate_date_chunks start_date end_date = Ok (map chunk_text ds)
        ∧ tiles (toordinal start) ds
                (last_covered (toordinal start) (toordinal end_)).
Proof.
  intros Hs He Hle Hmax. unfold generate_date_chunks. rewrite Hs, He. simpl.
  apply (chunk_loop_tiles _ start end_ []);
    eauto using strptime_valid; unfold chunk_fuel; lia.
Qed.

(** What tiling means for a single day: it lies in a chunk exactly when it
    lies in the range. *)
Lemma tiles_cover ds :
  ∀ lo hi, tiles lo ds hi →
    lo - 1 <= hi
    ∧ ∀ n, (∃ c, c ∈ ds ∧ toordinal c.1 <= n <= toordinal c.2) ↔ lo <= n <= hi.
Proof.
  induction ds as [|[a b] ds IH]; intros lo hi; simpl.
  - intros ->. split; [lia|]. intros n. split; [|lia].
    by intros (c & ?%not_elem_of_nil & _).
  - intros (_ & _ & Ha & Hab & Hrest). destruct (IH _ _ Hrest) as [Hhi Hcov].
    split; [lia|]. intros n. split.
    + intros (c & [->|Hin]%elem_of_cons & Hn); simpl in *; [lia|].
      assert (toordinal b + 1 <= n <= hi); [|lia]. apply Hcov. eauto.
    + intros Hn. destruct (Z.le_gt_cases n (toordinal b)) as [Hb|Hb].
      * exists (a, b). simpl. split; [by left|lia].
      * destruct (proj2 (Hcov n)) as (c & Hin & Hc); [lia|].
        exists c. split; [by right|done].
Qed.

(** The chunks of a tiling are in ascending order and apart. *)
Lemma tiles_ordered ds :
  ∀ lo hi, tiles lo ds hi →
    Forall (λ c, lo <= toordinal c.1 ∧ toordinal c.1 <= toordinal c.2 <= hi) ds
    ∧ StronglySorted (λ c1 c2, toordinal c1.2 < toordinal c2.1) ds.
Proof.
  induction ds as [|[a b] ds IH]; intros lo hi; simpl.
  - intros _. split; constructor.
  - intros (_ & _ & Ha & Hab & Hrest). destruct (IH _ _ Hrest) as [Hall Hsorted].
    destruct (tiles_cover _ _ _ Hrest) as [Hhi _].
    split.
    + constructor; [simpl; lia|].
      eapply Forall_impl; [exact Hall|]. simpl. intros c Hc. lia.
    + constructor; [done|].
      eapply Forall_impl; [exact Hall|]. simpl. intros c Hc. lia.
Qed.

(** Adding a month to the first day of a month gives the first day of the
    next month, as many days later as the month is long. *)
Lemma add_month_first cur :
  valid_date cur = true → day cur = 1 →
  12 * year cur + month cur < 12 * MAXYEAR + 12 →
  ∃ following,
    add_month cur = Ok following
    ∧ valid_date following = true ∧ day following = 1
    ∧ toordinal following
      = toordinal cur + days_in_month (year cur) (month cur)
    ∧ 12 * year following + month following = 12 * year cur + month cur + 1.
Proof.
  intros (Hy & Hm & Hd)%valid_date_spec Hday Hmax.
  unfold add_month. cbv zeta. unfold MINYEAR, MAXYEAR in *.
  destruct (Z.ltb_spec 12 (month cur + 1)) as [Hdec|Hdec].
  - assert (month cur = 12) as H12 by lia.
    pose proof (days_in_month_pos (year cur + 1) (month cur + 1 - 12)) as Hpos.
    rewrite Z.min_r by lia.
    assert ((1 <=? year cur + 1) && (year cur + 1 <=? 9999) = true) as ->.
    { apply andb_true_iff. rewrite !Z.leb_le. lia. }
    eexists. split; [done|]. simpl. split_and!; try lia.
    + apply valid_date_spec. unfold wf_date, MINYEAR, MAXYEAR. simpl. lia.
    + unfold toordinal, ymd2ord. simpl. rewrite H12, Hday.
      replace (12 + 1 - 12) with 1 by lia.
      rewrite days_before_year_succ.
      pose proof (days_before_month_december (year cur)).
      unfold days_before_month at 1. simpl. lia.
  - pose proof (days_in_month_pos (year cur) (month cur + 1)) as Hpos.
    rewrite Z.min_r by lia.
    assert ((1 <=? year cur) && (year cur <=? 9999) = true) as ->.
    { apply andb_true_iff. rewrite !Z.leb_le. lia. }
    eexists. split; [done|]. simpl. split_and!; try lia.
    + apply valid_date_spec. unfold wf_date, MINYEAR, MAXYEAR. simpl. lia.
    + unfold toordinal, ymd2ord. simpl. rewrite Hday.
      rewrite days_before_month_succ by lia. lia.
Qed.

Lemma dt_leb_months cur e :
  dt_leb cur e = true → month cur <= 12 → 1 <= month e →
  12 * year cur + month cur <= 12 * year e + month e.
Proof.
  unfold dt_leb, dt_ltb. rewrite negb_true_iff.
  rewrite !orb_false_iff, !andb_false_iff, !orb_false_iff, !andb_false_iff,
    !Z.ltb_ge, !Z.eqb_neq.
  lia.
Qed.

(** The loop of [month_chunks] with enough fuel, before the last month of
    the calendar. [cur] is the first day of a month that starts no later
    than [e] and ends no earlier than [s]: the loop runs to the end, and
    the chunks it yields tile the days from the later of [cur] and [s] to
    [e]. *)
Lemma month_loop_tiles fuel s e :
  valid_date s = true → valid_date e = true →
  12 * year e + month e < 12 * MAXYEAR + 12 →
  ∀ cur,
    valid_date cur = true → day cur = 1 →
    toordinal cur <= toordinal e →
    toordinal s <= toordinal e →
    toordinal s < toordinal cur + days_in_month (year cur) (month cur) →
    (Z.to_nat (12 * (year e - year cur) + (month e - month cur) + 1) ≤ fuel)%nat →
    ∃ ds, month_loop fuel cur s e = (map chunk_text ds, StopIteration)
          ∧ tiles (Z.max (toordinal cur) (toordinal s)) ds (toordinal e).
Proof.
  intros Hs He Hmax.
  induction fuel as [|fuel IH]; intros cur Hc Hday Hce Hse Hin Hfuel.
  all: assert (dt_leb cur e = true) as Hleb
    by (apply dt_leb_toordinal; [by apply valid_wf..|done]).
  all: pose proof (valid_date_spec cur) as [Hcs _]; specialize (Hcs Hc);
    destruct Hcs as (Hcy & Hcm & Hcd).
  all: pose proof (valid_date_spec e) as [Hes _]; specialize (Hes He);
    destruct Hes as (Hey & Hem & Hed).
  all: pose proof (dt_leb_months cur e Hleb ltac:(lia) ltac:(lia)) as Hmonths.
  { lia. }
  simpl. rewrite Hleb.
  assert (12 * year cur + month cur < 12 * MAXYEAR + 12) as Hcmax by lia.
  destruct (add_month_first cur Hc Hday Hcmax)
    as (following & -> & Hfv & Hfd & Hfo & Hfm).
  pose proof (days_in_month_pos (year cur) (month cur) Hcm) as Hpos.
  pose proof (toordinal_max cur Hc) as Hcr.
  pose proof (toordinal_max following Hfv) as Hfr.
  destruct (add_days_ok following (-1) Hfv) as (nxt & -> & Hnv & Hno); [lia|].
  destruct (dt_max_spec cur s Hc Hs) as [Hav Hao].
  destruct (dt_min_spec nxt e Hnv He) as [Hbv Hbo].
  destruct (Z.le_gt_cases (toordinal following) (toordinal e)) as [Hmore|Hlast].
  - destruct (IH following Hfv Hfd Hmore Hse) as (ds & Hrun & Htiles).
    { pose proof (valid_date_spec following) as [Hfs _]. specialize (Hfs Hfv).
      destruct Hfs as (_ & Hfmm & _).
      pose proof (days_in_month_pos (year following) (month following) Hfmm). lia. }
    { lia. }
    rewrite Hrun. exists ((dt_max cur s, dt_min nxt e) :: ds).
    split; [done|]. simpl. split_and!; try done; [lia|].
    replace (toordinal (dt_min nxt e) + 1)
      with (Z.max (toordinal following) (toordinal s)) by lia.
    exact Htiles.
  - assert (dt_leb following e = false) as Hstop.
    { destruct (dt_leb following e) eqn:E; [|done].
      apply dt_leb_toordinal in E; [lia|by apply valid_wf..]. }
    assert (month_loop fuel following s e = ([], StopIteration)) as ->.
    { destruct fuel; simpl; by rewrite Hstop. }
    exists [(dt_max cur s, dt_min nxt e)].
    split; [done|]. simpl. split_and!; try done; lia.
Qed.

(** [month_chunks] on a range of valid dates, the end not before the start
    and before December 9999: the generator runs to its end, and its
    chunks are ordered, do not overlap, leave no gap, start on the first
    day and end on the last. *)
Lemma month_chunks_tiles start_date end_date s e :
  strptime start_date = Ok s →
  strptime end_date = Ok e →
  toordinal s <= toordinal e →
  12 * year e + month e < 12 * MAXYEAR + 12 →
  ∃ ds, month_chunks start_date end_date = (map chunk_text ds, StopIteration)
        ∧ tiles (toordinal s) ds (toordinal e).
Proof.
  intros Hs He Hle Hmax. unfold month_chunks. rewrite Hs, He.
  apply strptime_valid in Hs, He.
  pose proof (valid_date_spec s) as [Hss _]. specialize (Hss Hs).
  destruct Hss as (Hsy & Hsm & Hsd).
  pose proof (days_in_month_pos (year s) (month s) Hsm) as Hpos.
  assert (valid_date (mkdate (year s) (month s) 1) = true) as Hfirst.
  { apply valid_date_spec. unfold wf_date. simpl. lia. }
  assert (toordinal (mkdate (year s) (month s) 1) = toordinal s - day s + 1) as Hord.
  { unfold toordinal, ymd2ord. simpl. lia. }
  destruct (month_loop_tiles (month_fuel s e) s e Hs He Hmax
              (mkdate (year s) (month s) 1)) as (ds & Hrun & Htiles);
    simpl; try done; try lia.
  exists ds. split; [done|].
  replace (toordinal s) with
    (Z.max (toordinal (mkdate (year s) (month s) 1)) (toordinal s)) at 1 by lia.
  exact Htiles.
Qed.

(** *** The budgets of the loops are enough *)

Lemma add_days_inv d k :
  valid_date d = true →
  add_days d k = Raise OverflowError
  ∨ ∃ d', add_days d k = Ok d' ∧ valid_date d' = true
          ∧ toordinal d' = toordinal d + k.
Proof.
  intros Hv. unfold add_days, fromordinal.
  destruct ((0 <? toordinal d + k) && (toordinal d + k <=? MAXORDINAL)) eqn:E;
    [|by left].
  right. apply andb_true_iff in E as [E1%Z.ltb_lt E2%Z.leb_le].
  eexists. split; [done|]. apply ord2ymd_valid. lia.
Qed.

Lemma chunk_loop_terminates fuel :
  ∀ current end_ acc,
    valid_date current = true → valid_date end_ = true →
    (Z.to_nat (toordinal end_ - toordinal current) ≤ fuel)%nat →
    chunk_loop fuel current end_ acc ≠ Raise OutOfFuel.
Proof.
  induction fuel as [|fuel IH]; intros current end_ acc Hc He Hfuel; simpl.
  - destruct (dt_ltb current end_) eqn:Hlt; [|done].
    apply dt_ltb_toordinal in Hlt; [lia|by apply valid_wf..].
  - destruct (dt_ltb current end_) eqn:Hlt; [|done].
    apply dt_ltb_toordinal in Hlt; [|by apply valid_wf..].
    destruct (add_days_inv current CHUNK_DAYS Hc)
      as [->|(stepped & -> & Hsv & Hso)]; [done|].
    simpl. destruct (dt_min_spec stepped end_ Hsv He) as [Hmv Hmo].
    destruct (add_days_inv (dt_min stepped end_) 1 Hmv)
      as [->|(next & -> & Hnv & Hno)]; [done|].
    simpl. apply IH; [done..|]. unfold CHUNK_DAYS in *. lia.
Qed.

(** [generate_date_chunks] returns or raises a Python exception on every
    pair of texts. *)
Lemma generate_date_chunks_terminates start_date end_date :
  generate_date_chunks start_date end_date ≠ Raise OutOfFuel.
Proof.
  unfold generate_date_chunks.
  destruct (strptime start_date) as [start|x] eqn:Hs.
  2:{ simpl. unfold strptime in Hs. repeat (case_match; try discriminate);
      by simplify_eq. }
  destruct (strptime end_date) as [end_|x] eqn:He.
  2:{ simpl. unfold strptime in He. repeat (case_match; try discriminate);
      by simplify_eq. }
  simpl. apply chunk_loop_terminates; eauto using strptime_valid.
Qed.

Lemma add_month_inv cur :
  valid_date cur = true → day cur = 1 →
  add_month cur = Raise ValueError
  ∨ ∃ following,
      add_month cur = Ok following
      ∧ valid_date following = true ∧ day following = 1
      ∧ 12 * year following + month following = 12 * year cur + month cur + 1.
Proof.
  intros Hc Hday.
  destruct (Z.lt_ge_cases (12 * year cur + month cur) (12 * MAXYEAR + 12)) as [H|H].
  - right. destruct (add_month_first cur Hc Hday H) as (f & ? & ? & ? & ? & ?).
    by exists f.
  - left. apply valid_date_spec in Hc as (Hy & Hm & _).
    unfold add_month, MINYEAR, MAXYEAR in *. cbv zeta.
    assert (month cur = 12 ∧ year cur = 9999) as [Hm12 Hy9] by lia.
    rewrite Hm12, Hy9. done.
Qed.

Lemma month_loop_terminates fuel s e :
  valid_date e = true →
  ∀ cur,
    valid_date cur = true → day cur = 1 →
    (Z.to_nat (12 * (year e - year cur) + (month e - month cur) + 1) ≤ fuel)%nat →
    (month_loop fuel cur s e).2 ≠ GenRaise OutOfFuel.
Proof.
  intros He. induction fuel as [|fuel IH]; intros cur Hc Hday Hfuel; simpl.
  all: destruct (dt_leb cur e) eqn:Hleb; [|done].
  all: pose proof (valid_date_spec cur) as [Hcs _]; specialize (Hcs Hc);
    destruct Hcs as (Hcy & Hcm & Hcd).
  all: pose proof (valid_date_spec e) as [Hes _]; specialize (Hes He);
    destruct Hes as (Hey & Hem & Hed).
  all: pose proof (dt_leb_months cur e Hleb ltac:(lia) ltac:(lia)) as Hmonths.
  { lia. }
  destruct (add_month_inv cur Hc Hday) as [->|(following & -> & Hfv & Hfd & Hfm)];
    [done|].
  destruct (add_days_inv following (-1) Hfv) as [->|(nxt & -> & _ & _)]; [done|].
  specialize (IH following Hfv Hfd).
  destruct (month_loop fuel following s e) as [rest fin]. simpl in *.
  apply IH. lia.
Qed.

(** [month_chunks] stops or raises a Python exception on every pair of
    texts. *)
Lemma month_chunks_terminates start_date end_date :
  (month_chunks start_date end_date).2 ≠ GenRaise OutOfFuel.
Proof.
  unfold month_chunks.
  destruct (strptime start_date) as [s|x] eqn:Hs.
  2:{ simpl. unfold strptime in Hs. repeat (case_match; try discriminate);
      by simplify_eq. }
  destruct (strptime end_date) as [e|x] eqn:He.
  2:{ simpl. unfold strptime in He. repeat (case_match; try discriminate);
      by simplify_eq. }
  apply strptime_valid in Hs, He.
  pose proof (valid_date_spec s) as [Hss _]. specialize (Hss Hs).
  destruct Hss as (Hsy & Hsm & Hsd).
  pose proof (days_in_month_pos (year s) (month s) Hsm) as Hpos.
  apply month_loop_terminates; simpl; try done.
  apply valid_date_spec. unfold wf_date. simpl. lia.
Qed.

End Chunkers.

(** ** The chunkers on the ranges of the specification *)

(** The last day of the range is in no chunk of [generate_date_chunks]
    whenever the number of days from start to end is a multiple of 46; it
    is in the last chunk otherwise. *)
Lemma generate_date_chunks_last_day start_date end_date start end_ :
  strptime start_date = Ok start →
  strptime end_date = Ok end_ →
  toordinal start <= toordinal end_ →
  toordinal end_ + CHUNK_DAYS <= MAXORDINAL →
  ∃ ds, generate_date_chunks start_date end_date = Ok (map chunk_text ds)
        ∧ ((∃ c, c ∈ ds ∧ toordinal c.1 <= toordinal end_ <= toordinal c.2)
           ↔ (toordinal end_ - toordinal start) mod (CHUNK_DAYS + 1) ≠ 0).
Proof.
  intros Hs He Hle Hmax.
  destruct (generate_date_chunks_tiles _ _ _ _ Hs He Hle Hmax) as (ds & Hrun & Ht).
  exists ds. split; [done|].
  destruct (tiles_cover _ _ _ Ht) as [_ Hcov]. rewrite Hcov.
  unfold last_covered.
  destruct (Z.eqb_spec ((toordinal end_ - toordinal start) mod (CHUNK_DAYS + 1)) 0)
    as [Hz|Hz]; split; try done; lia.
Qed.

(** C1, run on the code. From 2024-01-01 to 2024-02-16 there are 46 days
    after the first: [generate_date_chunks] returns the single chunk that
    ends on 2024-02-15, and 2024-02-16, the last day asked for, is in no
    chunk. A range of one day gets no chunk at all. [month_chunks] covers
    the same range to its last day. *)
Theorem C1_generate_date_chunks_leaves_out_last_day :
  generate_date_chunks "2024-01-01" "2024-02-16"
  = Ok [("2024-01-01", "2024-02-15")]%string
  ∧ covered [("2024-01-01", "2024-02-15")]%string (mkdate 2024 2 16) = false
  ∧ covered [("2024-01-01", "2024-02-15")]%string (mkdate 2024 2 15) = true
  ∧ generate_date_chunks "2024-01-01" "2024-01-01" = Ok []
  ∧ month_chunks "2024-01-01" "2024-02-16"
    = ([("2024-01-01", "2024-01-31"); ("2024-02-01", "2024-02-16")]%string,
       StopIteration).
Proof. split_and!; vm_compute; reflexivity. Qed.

(** C2, as the code has it. From 2024-01-01 to 2024-03-10 the chunks are
    2024-01-01 to 2024-02-15 and 2024-02-16 to 2024-03-10: a chunk ends 45
    days after its start, which makes it 46 days long. *)
Theorem C2_chunks_of_the_sample_range :
  generate_date_chunks "2024-01-01" "2024-03-10"
  = Ok [("2024-01-01", "2024-02-15"); ("2024-02-16", "2024-03-10")]%string.
Proof. vm_compute. reflexivity. Qed.

Lemma C2_counterexample :
  generate_date_chunks "2024-01-01" "2024-03-10"
  ≠ Ok [("2024-01-01", "2024-02-14"); ("2024-02-15", "2024-03-10")]%string.
Proof. vm_compute. discriminate. Qed.

(** * Further properties of the code *)

(** ** Date texts *)

Section DateTexts.

Lemma digit_round_trip z : digit_of_ascii (ascii_of_digit z) = Some (z mod 10).
Proof.
  unfold ascii_of_digit.
  assert (0 <= z mod 10 < 10) as Hr by (apply Z.mod_pos_bound; lia).
  set (k := z mod 10) in *. clearbody k.
  assert (k = 0 ∨ k = 1 ∨ k = 2 ∨ k = 3 ∨ k = 4 ∨ k = 5 ∨ k = 6 ∨ k = 7
          ∨ k = 8 ∨ k = 9) as Hk by lia.
  repeat (destruct Hk as [->|Hk]); try subst k; reflexivity.
Qed.

Lemma two_digits_round_trip z :
  0 <= z <= 99 →
  two_digits (ascii_of_digit (z / 10)) (ascii_of_digit z) = Some z.
Proof.
  intros Hz. unfold two_digits. rewrite !digit_round_trip. f_equal.
  Z.div_mod_to_equations. lia.
Qed.

Lemma four_digits_round_trip z :
  0 <= z <= 9999 →
  four_digits (ascii_of_digit (z / 1000)) (ascii_of_digit (z / 100))
              (ascii_of_digit (z / 10)) (ascii_of_digit z) = Some z.
Proof.
  intros Hz. unfold four_digits, two_digits. rewrite !digit_round_trip. f_equal.
  Z.div_mod_to_equations. lia.
Qed.

(** A date printed by [strftime] is read back by [strptime]. *)
Lemma strptime_strftime d : valid_date d = true → strptime (strftime d) = Ok d.
Proof.
  intros Hv. pose proof Hv as (Hy & Hm & Hd)%valid_date_spec.
  pose proof (days_in_month_pos (year d) (month d) Hm) as Hdim.
  unfold MINYEAR, MAXYEAR in Hy.
  unfold strftime, pad4, pad2, strptime. simpl.
  rewrite four_digits_round_trip, !two_digits_round_trip by lia.
  destruct d as [y m dd]. simpl in *. by rewrite Hv.
Qed.

Lemma strptime_names_no_day s : names_no_day s → strptime s = Raise ValueError.
Proof.
  intros (y & m & d & Hy & Hm & Hd & -> & Hv).
  unfold strftime, pad4, pad2, strptime. simpl.
  rewrite four_digits_round_trip, !two_digits_round_trip by lia.
  by rewrite Hv.
Qed.

(** Whether a day is in a chunk of texts is a matter of ordinals. *)
Lemma chunk_covers_text a b d :
  valid_date a = true → valid_date b = true → valid_date d = true →
  chunk_covers (chunk_text (a, b)) d = true
  ↔ toordinal a <= toordinal d <= toordinal b.
Proof.
  intros Ha Hb Hd. unfold chunk_covers, chunk_text. cbn [fst snd].
  rewrite !strptime_strftime by done.
  rewrite andb_true_iff, !dt_leb_toordinal by (by apply valid_date_spec). done.
Qed.

Lemma covered_tiles ds d :
  ∀ lo hi, tiles lo ds hi → valid_date d = true →
    covered (map chunk_text ds) d = true ↔ lo <= toordinal d <= hi.
Proof.
  induction ds as [|[a b] ds IH]; intros lo hi Ht Hd; simpl in *.
  - subst hi. split; [done|lia].
  - destruct Ht as (Ha & Hb & Hlo & Hab & Hrest).
    destruct (tiles_cover _ _ _ Hrest) as [Hhi _].
    rewrite orb_true_iff. change (strftime a, strftime b) with (chunk_text (a, b)).
    rewrite chunk_covers_text by done.
    fold (covered (map chunk_text ds) d). rewrite (IH _ _ Hrest Hd). lia.
Qed.

End DateTexts.

(** ** More on [generate_date_chunks] *)

Section FixedChunks.





(** How many chunks there are and how long they are: with [n] days from
    the start to the end, the loop makes [(n + 45) / 46] chunks, and no
    chunk has more than 45 days between its two ends. *)
Lemma chunk_loop_count fuel :
  ∀ current end_ acc,
    valid_date current = true → valid_date end_ = true →
    toordinal end_ + CHUNK_DAYS <= MAXORDINAL →
    toordinal current <= toordinal end_ + 1 →
    (Z.to_nat (toordinal end_ - toordinal current) ≤ fuel)%nat →
    ∃ ds, chunk_loop fuel current end_ acc = Ok (acc ++ map chunk_text ds)
          ∧ Z.of_nat (length ds)
            = (toordinal end_ - toordinal current + CHUNK_DAYS) / (CHUNK_DAYS + 1)
          ∧ Forall (λ c, 0 <= span c <= CHUNK_DAYS) ds.
Proof.
  unfold span.
  induction fuel as [|fuel IH]; intros current end_ acc Hc He Hmax Hle Hfuel.
  - assert (dt_ltb current end_ = false) as Hlt.
    { destruct (dt_ltb current end_) eqn:E; [|done].
      apply dt_ltb_toordinal in E; [lia|by apply valid_wf..]. }
    exists []. simpl. rewrite Hlt, app_nil_r. split; [done|]. split; [|done].
    unfold CHUNK_DAYS. Z.div_mod_to_equations. lia.
  - simpl. destruct (dt_ltb current end_) eqn:Hlt.
    2:{ exists []. rewrite app_nil_r. split; [done|]. split; [|done]. simpl.
        assert (toordinal end_ <= toordinal current).
        { destruct (Z.lt_ge_cases (toordinal current) (toordinal end_)) as [H|H];
            [|lia].
          apply dt_ltb_toordinal in H; [congruence|by apply valid_wf..]. }
        unfold CHUNK_DAYS. Z.div_mod_to_equations. lia. }
    apply dt_ltb_toordinal in Hlt; [|by apply valid_wf..].
    pose proof (toordinal_max current Hc) as Hcr.
    pose proof (toordinal_max end_ He) as Her.
    unfold CHUNK_DAYS in *.
    destruct (add_days_ok current 45 Hc) as (stepped & -> & Hsv & Hso); [lia|].
    simpl.
    destruct (dt_min_spec stepped end_ Hsv He) as [Hmv Hmo].
    destruct (add_days_ok (dt_min stepped end_) 1 Hmv) as (next & -> & Hnv & Hno);
      [lia|].
    simpl.
    destruct (IH next end_ (acc ++ [(strftime current, strftime (dt_min stepped end_))])
                Hnv He Hmax) as (ds & Hrun & Hlen & Hall); [lia|lia|].
    exists ((current, dt_min stepped end_) :: ds). split_and!.
    + rewrite Hrun. simpl. by rewrite <- app_assoc.
    + simpl length. rewrite Nat2Z.inj_succ, Hlen.
      destruct (Z.le_gt_cases (toordinal end_) (toordinal stepped)) as [Hs|Hs].
      * replace (toordinal next) with (toordinal end_ + 1) by lia.
        Z.div_mod_to_equations. lia.
      * replace (toordinal next) with (toordinal current + 46) by lia.
        Z.div_mod_to_equations. lia.
    + constructor; [simpl; lia|done].
Qed.



(** Every outcome of [generate_date_chunks]: a text that is not a date is a
    [ValueError]; otherwise the call returns, unless a date beyond the end
    of the calendar is computed, which is an [OverflowError]. When the end
    is not after the start, the result is the empty list. *)
Lemma chunk_loop_outcome fuel :
  ∀ current end_ acc,
    valid_date current = true → valid_date end_ = true →
    (Z.to_nat (toordinal end_ - toordinal current) ≤ fuel)%nat →
    (∃ cs, chunk_loop fuel current end_ acc = Ok cs)
    ∨ chunk_loop fuel current end_ acc = Raise OverflowError.
Proof.
  induction fuel as [|fuel IH]; intros current end_ acc Hc He Hfuel; simpl.
  - destruct (dt_ltb current end_) eqn:Hlt; [|eauto].
    apply dt_ltb_toordinal in Hlt; [lia|by apply valid_wf..].
  - destruct (dt_ltb current end_) eqn:Hlt; [|eauto].
    apply dt_ltb_toordinal in Hlt; [|by apply valid_wf..].
    destruct (add_days_inv current CHUNK_DAYS Hc)
      as [->|(stepped & -> & Hsv & Hso)]; [by right|].
    simpl. destruct (dt_min_spec stepped end_ Hsv He) as [Hmv Hmo].
    destruct (add_days_inv (dt_min stepped end_) 1 Hmv)
      as [->|(next & -> & Hnv & Hno)]; [by right|].
    simpl. apply IH; [done..|]. unfold CHUNK_DAYS in *. lia.
Qed.

Lemma strptime_raises text x : strptime text = Raise x → x = ValueError.
Proof.
  unfold strptime. intros H. repeat (case_match; try discriminate); by simplify_eq.
Qed.

Lemma generate_date_chunks_outcomes start_date end_date :
  ((∃ x, strptime start_date = Raise x) ∨ (∃ x, strptime end_date = Raise x)
   → generate_date_chunks start_date end_date = Raise ValueError)
  ∧ (∀ start end_,
       strptime start_date = Ok start → strptime end_date = Ok end_ →
       ((∃ cs, generate_date_chunks start_date end_date = Ok cs)
        ∨ generate_date_chunks start_date end_date = Raise OverflowError)
       ∧ (toordinal end_ <= toordinal start →
          generate_date_chunks start_date end_date = Ok [])).
Proof.
  unfold generate_date_chunks. split.
  - intros [[x Hx]|[x Hx]].
    + rewrite Hx. simpl. by rewrite (strptime_raises _ _ Hx).
    + destruct (strptime start_date) as [start|y] eqn:Hs; simpl.
      * rewrite Hx. simpl. by rewrite (strptime_raises _ _ Hx).
      * by rewrite (strptime_raises _ _ Hs).
  - intros start end_ Hs He. rewrite Hs, He. simpl.
    pose proof (strptime_valid _ _ Hs) as Hsv.
    pose proof (strptime_valid _ _ He) as Hev.
    split; [by apply chunk_loop_outcome|].
    intros Hle.
    assert (dt_ltb start end_ = false) as Hlt.
    { destruct (dt_ltb start end_) eqn:E; [|done].
      apply dt_ltb_toordinal in E; [lia|by apply valid_wf..]. }
    destruct (chunk_fuel start end_); simpl; by rewrite Hlt.
Qed.

(** Every outcome of [generate_date_chunks]: [ValueError] when one of the
    texts names no day of the calendar; for two dates a list or
    [OverflowError], and the empty list when the end is not after the
    start. *)
Theorem generate_date_chunks_outcome start_date end_date :
  (names_no_day start_date ∨ names_no_day end_date
   → generate_date_chunks start_date end_date = Raise ValueError)
  ∧ (∀ start end_,
       strptime start_date = Ok start → strptime end_date = Ok end_ →
       ((∃ cs, generate_date_chunks start_date end_date = Ok cs)
        ∨ generate_date_chunks start_date end_date = Raise OverflowError)
       ∧ (toordinal end_ <= toordinal start →
          generate_date_chunks start_date end_date = Ok [])).
Proof.
  destruct (generate_date_chunks_outcomes start_date end_date) as [Hbad Hgood].
  split; [|exact Hgood].
  intros [H|H]; apply Hbad; [left|right]; eauto using strptime_names_no_day.
Qed.

Lemma generate_date_chunks_outcome_witness :
  generate_date_chunks "2024-13-01" "2024-03-10" = Raise ValueError
  ∧ generate_date_chunks "2024-03-10" "2024-01-01" = Ok [].
Proof.
  split.
  - apply (generate_date_chunks_outcome "2024-13-01" "2024-03-10").
    left. exists 2024, 13, 1. split_and!; try lia; reflexivity.
  - apply (proj2 (generate_date_chunks_outcome "2024-03-10" "2024-01-01")
             (mkdate 2024 3 10) (mkdate 2024 1 1)).
    + reflexivity.
    + reflexivity.
    + vm_compute. discriminate.
Defined.

End FixedChunks.

(** ** More on [month_chunks] *)

Section MonthChunks.

(** A day from the first of a month up to the last day of that month is in
    that month. *)
Lemma same_month_of_first cur a :
  valid_date cur = true → day cur = 1 → valid_date a = true →
  toordinal cur <= toordinal a →
  toordinal a < toordinal cur + days_in_month (year cur) (month cur) →
  year a = year cur ∧ month a = month cur.
Proof.
  intros (_ & Hcm & _)%valid_date_spec Hday (_ & Ham & Had)%valid_date_spec.
  unfold toordinal, ymd2ord. rewrite Hday. intros Hlo Hhi.
  pose proof (days_before_month_range (year cur) (month cur) Hcm) as Hcr.
  pose proof (days_before_month_range (year a) (month a) Ham) as Har.
  destruct (Z.lt_trichotomy (year a) (year cur)) as [Hy|[Hy|Hy]].
  - pose proof (days_before_year_mono (year a + 1) (year cur)) as Hmono.
    rewrite days_before_year_succ in Hmono. lia.
  - rewrite Hy in *. split; [done|].
    destruct (Z.lt_trichotomy (month a) (month cur)) as [Hm|[Hm|Hm]]; [|done|].
    + pose proof (days_before_month_mono (year cur) (month a) (month cur)). lia.
    + pose proof (days_before_month_mono (year cur) (month cur) (month a)). lia.
  - pose proof (days_before_year_mono (year cur + 1) (year a)) as Hmono.
    rewrite days_before_year_succ in Hmono. lia.
Qed.

(** The loop of [month_chunks] again: one chunk per month from the month of
    [cur] to the month of [e], each chunk within its month. *)
Lemma month_loop_months fuel s e :
  valid_date s = true → valid_date e = true →
  12 * year e + month e < 12 * MAXYEAR + 12 →
  ∀ cur,
    valid_date cur = true → day cur = 1 →
    toordinal cur <= toordinal e →
    toordinal s <= toordinal e →
    toordinal s < toordinal cur + days_in_month (year cur) (month cur) →
    (Z.to_nat (12 * (year e - year cur) + (month e - month cur) + 1) ≤ fuel)%nat →
    ∃ ds, month_loop fuel cur s e = (map chunk_text ds, StopIteration)
          ∧ tiles (Z.max (toordinal cur) (toordinal s)) ds (toordinal e)
          ∧ months_from (month_index cur) ds
          ∧ Z.of_nat (length ds) = month_index e - month_index cur + 1.
Proof.
  intros Hs He Hmax. unfold month_index.
  induction fuel as [|fuel IH]; intros cur Hc Hday Hce Hse Hin Hfuel.
  all: assert (dt_leb cur e = true) as Hleb
    by (apply dt_leb_toordinal; [by apply valid_wf..|done]).
  all: pose proof (valid_date_spec cur) as [Hcs _]; specialize (Hcs Hc);
    destruct Hcs as (Hcy & Hcm & Hcd).
  all: pose proof (valid_date_spec e) as [Hes _]; specialize (Hes He);
    destruct Hes as (Hey & Hem & Hed).
  all: pose proof (dt_leb_months cur e Hleb ltac:(lia) ltac:(lia)) as Hmonths.
  { lia. }
  simpl. rewrite Hleb.
  assert (12 * year cur + month cur < 12 * MAXYEAR + 12) as Hcmax by lia.
  destruct (add_month_first cur Hc Hday Hcmax)
    as (following & -> & Hfv & Hfd & Hfo & Hfm).
  pose proof (days_in_month_pos (year cur) (month cur) Hcm) as Hpos.
  pose proof (toordinal_max cur Hc) as Hcr.
  pose proof (toordinal_max following Hfv) as Hfr.
  destruct (add_days_ok following (-1) Hfv) as (nxt & -> & Hnv & Hno); [lia|].
  destruct (dt_max_spec cur s Hc Hs) as [Hav Hao].
  destruct (dt_min_spec nxt e Hnv He) as [Hbv Hbo].
  destruct (same_month_of_first cur (dt_max cur s) Hc Hday Hav) as [Hay Ham];
    [lia|lia|].
  destruct (same_month_of_first cur (dt_min nxt e) Hc Hday Hbv) as [Hby Hbm];
    [lia|lia|].
  destruct (Z.le_gt_cases (toordinal following) (toordinal e)) as [Hmore|Hlast].
  - destruct (IH following Hfv Hfd Hmore Hse) as (ds & Hrun & Htiles & Hms & Hlen).
    { pose proof (valid_date_spec following) as [Hfs _]. specialize (Hfs Hfv).
      destruct Hfs as (_ & Hfmm & _).
      pose proof (days_in_month_pos (year following) (month following) Hfmm). lia. }
    { lia. }
    rewrite Hrun. exists ((dt_max cur s, dt_min nxt e) :: ds).
    split; [done|]. simpl. split_and!; try done; try (unfold month_index; lia).
    + replace (toordinal (dt_min nxt e) + 1)
        with (Z.max (toordinal following) (toordinal s)) by lia.
      exact Htiles.
    + by rewrite <- Hfm.
  - assert (dt_leb following e = false) as Hstop.
    { destruct (dt_leb following e) eqn:E; [|done].
      apply dt_leb_toordinal in E; [lia|by apply valid_wf..]. }
    assert (month_loop fuel following s e = ([], StopIteration)) as ->.
    { destruct fuel; simpl; by rewrite Hstop. }
    exists [(dt_max cur s, dt_min nxt e)].
    split; [done|]. simpl. split_and!; try done; try (unfold month_index; lia).
    (* [e] is in the month of [cur] *)
    destruct (same_month_of_first cur e Hc Hday He) as [Hey' Hem']; lia.
Qed.



(** The chunks of [month_chunks] partition the range asked for: the first
    chunk starts on the first day and the last ends on the last day, each
    chunk starts on the day after the one before it ends, every chunk lies
    within the range, and any earlier chunk ends before any later one
    starts. *)
Theorem month_chunks_partition start_date end_date s e :
  strptime start_date = Ok s →
  strptime end_date = Ok e →
  toordinal s <= toordinal e →
  12 * year e + month e < 12 * MAXYEAR + 12 →
  ∃ ds, month_chunks start_date end_date = (map chunk_text ds, StopIteration)
        ∧ tiles (toordinal s) ds (toordinal e)
        ∧ Forall (λ c, toordinal s <= toordinal c.1
                       ∧ toordinal c.1 <= toordinal c.2 <= toordinal e) ds
        ∧ StronglySorted (λ c1 c2, toordinal c1.2 < toordinal c2.1) ds.
Proof.
  intros Hs He Hle Hmax.
  destruct (month_chunks_tiles _ _ _ _ Hs He Hle Hmax) as (ds & Hrun & Ht).
  exists ds. split; [exact Hrun|]. split; [exact Ht|].
  exact (tiles_ordered _ _ _ Ht).
Qed.

Lemma month_chunks_partition_witness :
  ∃ ds, month_chunks "2023-11-20" "2024-02-10" = (map chunk_text ds, StopIteration)
        ∧ tiles (toordinal (mkdate 2023 11 20)) ds (toordinal (mkdate 2024 2 10))
        ∧ StronglySorted (λ c1 c2, toordinal c1.2 < toordinal c2.1) ds.
Proof.
  destruct (month_chunks_partition "2023-11-20" "2024-02-10"
              (mkdate 2023 11 20) (mkdate 2024 2 10))
    as (ds & Hrun & Ht & _ & Hsorted).
  - reflexivity.
  - reflexivity.
  - vm_compute. discriminate.
  - vm_compute. reflexivity.
  - exists ds. split; [exact Hrun|]. split; [exact Ht|exact Hsorted].
Defined.

(** The outcomes of [month_chunks] at the edges: a text that names no day
    of the calendar raises [ValueError] before any chunk is yielded; an
    end before the start, in an earlier month, yields no chunk. *)
Theorem month_chunks_edges start_date end_date :
  (names_no_day start_date ∨ names_no_day end_date
   → month_chunks start_date end_date = ([], GenRaise ValueError))
  ∧ (∀ s e,
       strptime start_date = Ok s → strptime end_date = Ok e →
       month_index e < month_index s →
       month_chunks start_date end_date = ([], StopIteration)).
Proof.
  unfold month_chunks. split.
  - intros [Hx%strptime_names_no_day|Hx%strptime_names_no_day].
    + by rewrite Hx.
    + destruct (strptime start_date) as [s|y] eqn:Hs.
      * by rewrite Hx.
      * by rewrite (strptime_raises _ _ Hs).
  - intros s e Hs He Hlt. rewrite Hs, He.
    assert (dt_leb (mkdate (year s) (month s) 1) e = false) as Hstop.
    { apply strptime_valid in Hs, He.
      apply valid_date_spec in Hs as (_ & Hsm & _), He as (_ & Hem & Hed).
      unfold month_index in Hlt. unfold dt_leb, dt_ltb. simpl.
      apply negb_false_iff, orb_true_iff.
      destruct (Z.lt_trichotomy (year e) (year s)) as [Hy|[Hy|Hy]]; [|right|lia].
      - left. by apply Z.ltb_lt.
      - apply andb_true_iff. split; [by apply Z.eqb_eq|].
        apply orb_true_iff. left. apply Z.ltb_lt. lia. }
    destruct (month_fuel s e); simpl; by rewrite Hstop.
Qed.

Lemma month_chunks_edges_witness :
  month_chunks "2024-02-30" "2024-03-10" = ([], GenRaise ValueError)
  ∧ month_chunks "2024-03-10" "2024-01-01" = ([], StopIteration).
Proof.
  split.
  - apply (month_chunks_edges "2024-02-30" "2024-03-10").
    left. exists 2024, 2, 30. split_and!; try lia; reflexivity.
  - apply (proj2 (month_chunks_edges "2024-03-10" "2024-01-01")
             (mkdate 2024 3 10) (mkdate 2024 1 1)).
    + reflexivity.
    + reflexivity.
    + vm_compute. reflexivity.
Defined.

End MonthChunks.

(** ** More on the per-ticker task *)

Section TaskMore.

Context (env : Env) (ticker : string).

(** One step of the loop, in numbers: one call more; the call is a
    success, a failure, or a sleep of 60 seconds; the data points grow by
    the rows of the frame added; and no empty frame is added. *)
Lemma fetch_chunk_accounting c acc st :
  let acc' := (fetch_chunk env ticker c acc st).1 in
  let st' := (fetch_chunk env ticker c acc st).2 in
  total_api_calls (stats st') = total_api_calls (stats st) + 1
  ∧ 60 * (1 - (successful_calls (stats st') - successful_calls (stats st))
            - (failed_calls (stats st') - failed_calls (stats st)))
    = slept st' - slept st
  ∧ total_data_points (stats st') - total_data_points (stats st)
    = rows_collected acc' - rows_collected acc
  ∧ (Forall (λ df, df ≠ []) acc → Forall (λ df, df ≠ []) acc').
Proof.
  unfold rows_collected.
  fetch_cases; rewrite ?concat_app, ?length_app; simpl;
    rewrite ?app_nil_r; split_and!; try lia; try done.
  intros Hall. apply Forall_app. split; [done|]. by constructor.
Qed.

Lemma fetch_chunks_accounting cs :
  ∀ acc st,
    let acc' := (fetch_chunks env ticker cs acc st).1 in
    let st' := (fetch_chunks env ticker cs acc st).2 in
    total_api_calls (stats st') = total_api_calls (stats st) + Z.of_nat (length cs)
    ∧ 60 * (Z.of_nat (length cs)
            - (successful_calls (stats st') - successful_calls (stats st))
            - (failed_calls (stats st') - failed_calls (stats st)))
      = slept st' - slept st
    ∧ total_data_points (stats st') - total_data_points (stats st)
      = rows_collected acc' - rows_collected acc
    ∧ (Forall (λ df, df ≠ []) acc → Forall (λ df, df ≠ []) acc').
Proof.
  induction cs as [|c cs IH]; intros acc st.
  - simpl. split_and!; try lia; done.
  - rewrite fetch_chunks_cons. cbv zeta.
    destruct (fetch_chunk_accounting c acc st) as (H1 & H2 & H3 & H4).
    destruct (IH (fetch_chunk env ticker c acc st).1
                 (fetch_chunk env ticker c acc st).2) as (K1 & K2 & K3 & K4).
    simpl length. split_and!; try lia. intros Hall. by apply K4, H4.
Qed.

(** What the later steps of the task leave as the loop left it. *)
Lemma download_ticker_data_after_loop s e st cs :
  ticker ∉ completed_tickers st →
  csv_files st !! ticker = None →
  generate_date_chunks s e = Ok cs →
  let st1 := (fetch_chunks env ticker cs [] st).2 in
  let st' := (download_ticker_data env ticker s e st).2 in
  stats st' = stats st1 ∧ sent st' = sent st1 ∧ slept st' = slept st1.
Proof.
  intros Hc Hf Hg. cbv zeta.
  rewrite (download_ticker_data_fetch env ticker s e st cs) by done. cbv zeta.
  destruct (fetch_chunks env ticker cs [] st) as [all_data st1]. simpl.
  unfold to_csv, save_progress.
  destruct all_data; destruct (csv_writable env ticker);
    destruct (progress_writable env); simpl; done.
Qed.

(** The calls of a task, counted. When the task goes through its loop, it
    sends one request per chunk, in the order of the chunks;
    [total_api_calls] grows by the number of chunks; each call is counted
    as a success or as a failure, or it is followed by a sleep of 60
    seconds; and [total_data_points] grows by the number of rows
    collected. Whether the files can be written plays no part. *)
Theorem download_ticker_data_accounting s e st cs :
  ticker ∉ completed_tickers st →
  csv_files st !! ticker = None →
  generate_date_chunks s e = Ok cs →
  let st' := (download_ticker_data env ticker s e st).2 in
  let n := Z.of_nat (length cs) in
  sent st' = sent st ++ map (request_of ticker) cs
  ∧ total_api_calls (stats st') = total_api_calls (stats st) + n
  ∧ 60 * (n - (successful_calls (stats st') - successful_calls (stats st))
            - (failed_calls (stats st') - failed_calls (stats st)))
    = slept st' - slept st
  ∧ total_data_points (stats st') - total_data_points (stats st)
    = rows_collected (fetch_chunks env ticker cs [] st).1.
Proof.
  intros Hc Hf Hg. cbv zeta.
  destruct (download_ticker_data_after_loop s e st cs Hc Hf Hg) as (-> & -> & ->).
  destruct (fetch_chunks_accounting cs [] st) as (H1 & H2 & H3 & _).
  rewrite fetch_chunks_sent. unfold rows_collected in *. simpl in *.
  split_and!; try done; lia.
Qed.

Lemma written_rows_empty (df : list Bar) :
  drop_duplicates (sort_values df) = [] → df = [].
Proof.
  destruct df as [|row df]; [done|]. intros Hempty.
  assert (row ∈ drop_duplicates (sort_values (row :: df))) as Hin.
  { rewrite elem_of_drop_duplicates, elem_of_sort_values. by left. }
  rewrite Hempty in Hin. by apply not_elem_of_nil in Hin.
Qed.

(** The task never writes an empty file: a file that it creates holds at
    least one row. *)
Theorem download_ticker_data_writes_no_empty_file s e st df :
  csv_files st !! ticker = None →
  csv_files (download_ticker_data env ticker s e st).2 !! ticker = Some df →
  df ≠ [].
Proof.
  intros Hf Hnew.
  destruct (decide (ticker ∈ completed_tickers st)) as [Hc|Hc].
  { rewrite download_ticker_data_skip in Hnew by done. simpl in Hnew. congruence. }
  destruct (generate_date_chunks s e) as [cs|x] eqn:Hg.
  2:{ rewrite (download_ticker_data_bad_dates env ticker s e st x) in Hnew by done.
      simpl in Hnew. congruence. }
  rewrite (download_ticker_data_fetch env ticker s e st cs) in Hnew by done.
  cbv zeta in Hnew.
  destruct (fetch_chunks_accounting cs [] st) as (_ & _ & _ & Hne).
  destruct (fetch_chunks_store env ticker cs [] st) as (_ & Hcsv & _).
  destruct (fetch_chunks env ticker cs [] st) as [all_data st1]. simpl in *.
  specialize (Hne (Forall_nil_2 _)).
  unfold to_csv, save_progress in Hnew.
  destruct all_data as [|frame all_data];
    destruct (csv_writable env ticker); destruct (progress_writable env);
    simpl in Hnew; rewrite ?lookup_insert_eq in Hnew; try congruence.
  all: simplify_eq.
  all: apply Forall_cons in Hne as [Hframe _].
  all: intros Hempty%written_rows_empty.
  all: simpl in Hempty; by apply app_eq_nil in Hempty as [? _].
Qed.

End TaskMore.

Lemma download_ticker_data_accounting_witness :
  let st' := (download_ticker_data (writable refusing_server) ABC
                "2024-01-01" "2024-05-10" fresh).2 in
  total_api_calls (stats st') = 3
  ∧ successful_calls (stats st') = 2
  ∧ failed_calls (stats st') = 1
  ∧ total_data_points (stats st') = 2.
Proof.
  destruct (download_ticker_data_accounting (writable refusing_server) ABC
              "2024-01-01" "2024-05-10" fresh
              [("2024-01-01", "2024-02-15"); ("2024-02-16", "2024-04-01");
               ("2024-04-02", "2024-05-10")]%string)
    as (_ & H2 & _ & H4).
  - apply (bool_decide_unpack _). vm_compute. exact I.
  - reflexivity.
  - vm_compute. reflexivity.
  - cbv zeta. split; [rewrite H2; reflexivity|].
    split; [vm_compute; reflexivity|]. split; [vm_compute; reflexivity|].
    vm_compute in H4. vm_compute. exact H4.
Defined.

Lemma download_ticker_data_writes_no_empty_file_witness :
  [bar 5000 11] ≠ [].
Proof.
  apply (download_ticker_data_writes_no_empty_file (writable refusing_server) ABC
           "2024-01-01" "2024-05-10" fresh).
  - reflexivity.
  - vm_compute. reflexivity.
Defined.

Section TaskEdges.

Context (env : Env) (ticker : string).

(** What one call of the task can change in the files and in the set. *)
Lemma download_ticker_data_shape s e st :
  let st' := (download_ticker_data env ticker s e st).2 in
  (csv_files st' = csv_files st
   ∨ csv_files st !! ticker = None
     ∧ ∃ df, csv_files st' = <[ticker := df]> (csv_files st))
  ∧ (completed_tickers st' = completed_tickers st
     ∨ completed_tickers st' = {[ticker]} ∪ completed_tickers st).
Proof.
  cbv zeta.
  destruct (decide (ticker ∈ completed_tickers st)) as [Hc|Hc].
  { rewrite download_ticker_data_skip by done. simpl. tauto. }
  destruct (csv_files st !! ticker) as [old|] eqn:Hf.
  { rewrite download_ticker_data_file by (rewrite ?Hf; eauto).
    pose proof (save_progress_marks env ticker st) as (_ & Hset & Hcsv & _).
    destruct (save_progress env ticker st) as [[?|?] ?]; simpl in *; tauto. }
  destruct (generate_date_chunks s e) as [cs|x] eqn:Hg.
  2:{ rewrite (download_ticker_data_bad_dates env ticker s e st x) by done.
      simpl. tauto. }
  rewrite (download_ticker_data_fetch env ticker s e st cs) by done. cbv zeta.
  destruct (fetch_chunks_store env ticker cs [] st) as (Hsame & Hcsv & _).
  destruct (fetch_chunks env ticker cs [] st) as [all_data st1]. simpl in *.
  unfold to_csv, save_progress.
  destruct all_data; destruct (csv_writable env ticker);
    destruct (progress_writable env); simpl; rewrite ?Hsame, ?Hcsv;
    (split; [|tauto]); try (by left); right; eauto.
Qed.

(** The task keeps to its own ticker and to new files: a file that is on
    disk is neither changed nor removed, no file is created for another
    ticker, no ticker leaves the completed set, and no ticker other than
    its own joins it. *)
Theorem download_ticker_data_keeps_to_its_ticker s e st :
  let st' := (download_ticker_data env ticker s e st).2 in
  (∀ t old, csv_files st !! t = Some old → csv_files st' !! t = Some old)
  ∧ (∀ t, t ≠ ticker → csv_files st' !! t = csv_files st !! t)
  ∧ completed_tickers st ⊆ completed_tickers st'
  ∧ completed_tickers st' ⊆ {[ticker]} ∪ completed_tickers st.
Proof.
  cbv zeta.
  destruct (download_ticker_data_shape s e st) as [Hfiles Hset].
  split_and!.
  - intros t old Hold. destruct Hfiles as [->|(Hnone & df & ->)]; [done|].
    rewrite lookup_insert_ne; [done|]. intros <-. congruence.
  - intros t Hne. destruct Hfiles as [->|(Hnone & df & ->)]; [done|].
    by rewrite lookup_insert_ne.
  - destruct Hset as [->| ->]; set_solver.
  - destruct Hset as [->| ->]; set_solver.
Qed.

(** A ticker whose file is already on disk: no request is sent, the dates
    are not even read, the counters and the file are left alone, and the
    ticker joins the completed set. The call returns [True] and the set is
    on disk when the progress file can be written; otherwise the write
    raises and the progress file is as before. *)
Theorem download_ticker_data_existing_file s e st :
  ticker ∉ completed_tickers st →
  is_Some (csv_files st !! ticker) →
  let r := (download_ticker_data env ticker s e st).1 in
  let st' := (download_ticker_data env ticker s e st).2 in
  sent st' = sent st ∧ stats st' = stats st ∧ csv_files st' = csv_files st
  ∧ ticker ∈ completed_tickers st'
  ∧ (progress_writable env = true →
     r = Ok true ∧ ticker ∈ load_progress (progress_file st'))
  ∧ (progress_writable env = false →
     r = Raise OSError ∧ progress_file st' = progress_file st).
Proof.
  intros Hc Hf. cbv zeta. rewrite download_ticker_data_file by done.
  unfold save_progress. destruct (progress_writable env); simpl;
    split_and!; try done; try set_solver.
Qed.

(** The dates at the edges, for a ticker that is new and has no file. A
    text that names no day of the calendar makes the task raise
    [ValueError] and change nothing, so that the ticker is tried again by
    a later run. A range
    whose end is not after its start has no chunk: no request is sent, no
    file is written, and the ticker is recorded as completed all the
    same. *)
Theorem download_ticker_data_date_edges s e st :
  ticker ∉ completed_tickers st →
  csv_files st !! ticker = None →
  (names_no_day s ∨ names_no_day e →
   download_ticker_data env ticker s e st = (Raise ValueError, st))
  ∧ (∀ start end_,
       strptime s = Ok start → strptime e = Ok end_ →
       toordinal end_ <= toordinal start →
       progress_writable env = true →
       let r := (download_ticker_data env ticker s e st).1 in
       let st' := (download_ticker_data env ticker s e st).2 in
       r = Ok true ∧ sent st' = sent st ∧ csv_files st' = csv_files st
       ∧ ticker ∈ load_progress (progress_file st')).
Proof.
  intros Hc Hf. destruct (generate_date_chunks_outcomes s e) as [Hbad Hgood]. split.
  - intros Hx. apply download_ticker_data_bad_dates; [done..|]. apply Hbad.
    destruct Hx as [Hx|Hx]; [left|right]; eauto using strptime_names_no_day.
  - intros start end_ Hs He Hle Hw. cbv zeta.
    destruct (Hgood start end_ Hs He) as [_ Hnil]. specialize (Hnil Hle).
    rewrite (download_ticker_data_fetch env ticker s e st []) by done.
    simpl. unfold save_progress. rewrite Hw. simpl. split_and!; try done.
    set_solver.
Qed.

End TaskEdges.

Lemma download_ticker_data_existing_file_witness :
  let st := mkState ∅ no_stats [] 0 {[ABC := [bar 1 1]]} Absent in
  let st' := (download_ticker_data (writable throttling_server) ABC
                "not a date" "2024-03-10" st).2 in
  sent st' = [] ∧ csv_files st' = csv_files st ∧ ABC ∈ completed_tickers st'.
Proof.
  destruct (download_ticker_data_existing_file (writable throttling_server) ABC
              "not a date" "2024-03-10"
              (mkState ∅ no_stats [] 0 {[ABC := [bar 1 1]]} Absent))
    as (H1 & _ & H3 & H4 & _).
  - apply (bool_decide_unpack _). vm_compute. exact I.
  - exists [bar 1 1]. vm_compute. reflexivity.
  - cbv zeta. split; [exact H1|]. split; [exact H3|exact H4].
Defined.

Lemma download_ticker_data_date_edges_witness :
  download_ticker_data (writable throttling_server) ABC "2024-02-30" "2024-03-10" fresh
  = (Raise ValueError, fresh)
  ∧ sent (download_ticker_data (writable throttling_server) ABC
            "2024-03-10" "2024-03-10" fresh).2 = [].
Proof.
  destruct (download_ticker_data_date_edges (writable throttling_server) ABC
              "2024-02-30" "2024-03-10" fresh) as [Hbad _].
  { apply (bool_decide_unpack _). vm_compute. exact I. }
  { reflexivity. }
  destruct (download_ticker_data_date_edges (writable throttling_server) ABC
              "2024-03-10" "2024-03-10" fresh) as [_ Hempty].
  { apply (bool_decide_unpack _). vm_compute. exact I. }
  { reflexivity. }
  split.
  - apply Hbad. left. exists 2024, 2, 30. split_and!; try lia; reflexivity.
  - destruct (Hempty (mkdate 2024 3 10) (mkdate 2024 3 10)) as (_ & H2 & _).
    + reflexivity.
    + reflexivity.
    + vm_compute. discriminate.
    + reflexivity.
    + exact H2.
Defined.

(** ** More on the scheduler *)

Section Scheduler.

Context (env : Env).

(** With dates that can be cut into chunks, a task whose CSV file can be
    written leaves its ticker in the completed set, whatever the service
    answers and whether or not the progress file can be written. *)
Lemma download_ticker_data_marks ticker s e st cs :
  generate_date_chunks s e = Ok cs →
  csv_writable env ticker = true →
  ticker ∈ completed_tickers (download_ticker_data env ticker s e st).2.
Proof.
  intros Hg Hw.
  destruct (decide (ticker ∈ completed_tickers st)) as [Hc|Hc].
  { by rewrite download_ticker_data_skip. }
  destruct (csv_files st !! ticker) as [old|] eqn:Hf.
  { rewrite download_ticker_data_file by (rewrite ?Hf; eauto).
    pose proof (save_progress_marks env ticker st) as (Hin & _).
    by destruct (save_progress env ticker st) as [[?|?] ?]. }
  rewrite (download_ticker_data_fetch env ticker s e st cs) by done. cbv zeta.
  destruct (fetch_chunks env ticker cs [] st) as [all_data st1]. simpl.
  unfold to_csv, save_progress. rewrite Hw.
  destruct all_data; destruct (progress_writable env); simpl; set_solver.
Qed.

(** With a writable progress file, the set in memory and the set on disk
    stay the same set through a task. *)
Lemma download_ticker_data_in_sync ticker s e st :
  progress_writable env = true →
  in_sync st → in_sync (download_ticker_data env ticker s e st).2.
Proof.
  unfold in_sync. intros Hw Hsync.
  destruct (decide (ticker ∈ completed_tickers st)) as [Hc|Hc].
  { by rewrite download_ticker_data_skip. }
  destruct (csv_files st !! ticker) as [old|] eqn:Hf.
  { rewrite download_ticker_data_file by (rewrite ?Hf; eauto).
    unfold save_progress. by rewrite Hw. }
  destruct (generate_date_chunks s e) as [cs|x] eqn:Hg.
  2:{ by rewrite (download_ticker_data_bad_dates env ticker s e st x). }
  rewrite (download_ticker_data_fetch env ticker s e st cs) by done. cbv zeta.
  destruct (fetch_chunks_store env ticker cs [] st) as (Hsame & _ & Hfile).
  destruct (fetch_chunks env ticker cs [] st) as [all_data st1]. simpl in *.
  unfold to_csv, save_progress. rewrite Hw.
  destruct all_data; destruct (csv_writable env ticker); simpl; congruence.
Qed.

Lemma run_jobs_grows queue :
  ∀ st, completed_tickers st ⊆ completed_tickers (run_jobs env queue st).
Proof.
  induction queue as [|t queue IH]; intros st; simpl; [done|].
  etransitivity; [|apply IH].
  destruct (download_ticker_data_shape env t DEFAULT_START DEFAULT_END st)
    as [_ [->| ->]]; set_solver.
Qed.

Lemma default_dates_chunked : ∃ cs, generate_date_chunks DEFAULT_START DEFAULT_END = Ok cs.
Proof. eexists. vm_compute. reflexivity. Qed.

(** Jobs are independent: every ticker of the queue whose file can be
    written is completed at the end of the queue, whatever happens to the
    jobs of the other tickers. *)
Lemma run_jobs_completes queue :
  ∀ st t, t ∈ queue → csv_writable env t = true →
    t ∈ completed_tickers (run_jobs env queue st).
Proof.
  induction queue as [|t' queue IH]; intros st t Hin Hw; simpl.
  - by apply not_elem_of_nil in Hin.
  - apply elem_of_cons in Hin as [->|Hin]; [|by apply IH].
    apply run_jobs_grows.
    destruct default_dates_chunked as [cs Hcs].
    by eapply download_ticker_data_marks.
Qed.

Lemma run_jobs_in_sync queue :
  progress_writable env = true →
  ∀ st, in_sync st → in_sync (run_jobs env queue st).
Proof.
  intros Hw. induction queue as [|t queue IH]; intros st Hsync; simpl; [done|].
  by apply IH, download_ticker_data_in_sync.
Qed.

(** When the early exit of [download_all_data] is taken with a list
    without repeats and a completed set within the list, every ticker of
    the list is completed. *)
Lemma all_completed_by_count (tickers : list string) (st : State) :
  NoDup tickers →
  completed_tickers st ⊆ list_to_set tickers →
  Z.of_nat (length tickers) - Z.of_nat (size (completed_tickers st)) = 0 →
  ∀ t, t ∈ tickers → t ∈ completed_tickers st.
Proof.
  intros Hnd Hsub Hcount t Hin.
  assert (completed_tickers st = list_to_set tickers) as ->.
  { apply set_subseteq_size_eq; [done|].
    rewrite size_list_to_set by done. lia. }
  by apply elem_of_list_to_set.
Qed.

Lemma work_queue_empty (tickers : list string) (st : State) :
  (∀ t, t ∈ tickers → t ∈ completed_tickers st) → work_queue tickers st = [].
Proof.
  unfold work_queue. induction tickers as [|t tickers IH]; intros Hall; [done|].
  rewrite filter_cons. case_decide as Hnot.
  - exfalso. apply Hnot, Hall. by left.
  - apply IH. intros t' Hin. apply Hall. by right.
Qed.

(** A run completes the list. The list has no repeats and the completed
    set holds no ticker from outside the list: then after
    [download_all_data] every ticker of the list whose CSV file can be
    written is in the completed set, whatever the service answered for it
    or for the others. (The jobs of the pool run in queue order.) *)
Lemma download_all_data_marks_all (tickers : list string) (st : State) :
  NoDup tickers →
  completed_tickers st ⊆ list_to_set tickers →
  ∀ t, t ∈ tickers → csv_writable env t = true →
    t ∈ completed_tickers (download_all_data env tickers st).
Proof.
  intros Hnd Hsub t Hin Hw. unfold download_all_data. cbv zeta.
  destruct (Z.eqb_spec (Z.of_nat (length tickers)
                        - Z.of_nat (size (completed_tickers st))) 0) as [Hz|Hz].
  - by apply (all_completed_by_count tickers st).
  - destruct (decide (t ∈ completed_tickers st)) as [Hc|Hc].
    + by apply run_jobs_grows.
    + apply run_jobs_completes; [|done]. by apply work_queue_spec.
Qed.

(** A run of [download_all_data] over a list without repeats, started
    with a completed set that holds only tickers of the list: every ticker
    of the list whose CSV file can be written is in the completed set at
    the end, whatever the service answers and whether or not the progress
    file can be written. *)
Theorem download_all_data_completes (tickers : list string) (st : State) :
  NoDup tickers →
  completed_tickers st ⊆ list_to_set tickers →
  ∀ t, t ∈ tickers → csv_writable env t = true →
    t ∈ completed_tickers (download_all_data env tickers st).
Proof. apply download_all_data_marks_all. Qed.


End Scheduler.

Lemma download_all_data_completes_witness :
  MSFT ∈ completed_tickers
           (download_all_data (writable refusing_server) [AAPL; ABC; MSFT] fresh).
Proof.
  apply (download_all_data_completes (writable refusing_server)
           [AAPL; ABC; MSFT] fresh).
  - apply (bool_decide_unpack _). vm_compute. exact I.
  - apply (bool_decide_unpack _). vm_compute. exact I.
  - apply (bool_decide_unpack _). vm_compute. exact I.
  - reflexivity.
Defined.


(** ** More on the FX fetch *)

Section FetchMore.

Import FX.


(** The shape of one fetch with retries. There are no more calls than the
    script has attempts; every call but the last raised an [HTTPError] or
    a [ConnectionError]; and when the fetch returns rows, they are the rows
    of its last call, and it has slept exactly once before each call but
    the first. *)
Theorem on_exception_calls (p : string) (script : list attempt) :
  ∀ tries elapsed,
    let r := on_exception p script tries elapsed in
    (calls r ≤ length script)%nat
    ∧ (∀ i a, (S i < calls r)%nat → script !! i = Some a →
         ∃ e, listing a = Raise e ∧ retried e = true)
    ∧ (∀ df, returned r = Ok df →
         calls r = S (length (sleeps r))
         ∧ ∃ a, script !! length (sleeps r) = Some a
                ∧ fetch_body p (listing a) = Ok df).
Proof.
  induction script as [|a rest IH]; intros tries elapsed; cbv zeta.
  - simpl. split_and!; try done; try lia; try (intros ? ? ?; lia).
  - simpl. destruct (fetch_body p (listing a)) as [df|e] eqn:Hbody.
    { simpl. split_and!; try done; try lia; try (intros ? ? ?; lia).
      intros df' [= <-]. split; [done|]. exists a. by split. }
    assert (listing a = Raise e) as Hlist.
    { unfold fetch_body in Hbody. destruct (listing a); simpl in *; congruence. }
    destruct (retried e) eqn:Hr; simpl.
    2:{ split_and!; try done; try lia; try (intros ? ? ?; lia). }
    destruct (Qle_bool MAX_TIME elapsed); simpl.
    { split_and!; try done; try lia; try (intros ? ? ?; lia). }
    set (seconds := Qmin (draw a * expo tries) (MAX_TIME - elapsed)).
    destruct (IH (S tries) (elapsed + took a + seconds)%Q) as (H1 & H3 & H4).
    split_and!.
    + lia.
    + intros i a' Hi Hlook. destruct i as [|i]; simpl in Hlook.
      * simplify_eq. eauto.
      * apply (H3 i a'); [lia|done].
    + intros df Hdf. destruct (H4 df Hdf) as (Hcalls & a' & Hlook & Hbody').
      split; [by rewrite Hcalls|]. exists a'. by split.
Qed.

(** Calls that take time cannot go on for ever: when every call lasts at
    least [tau] seconds, with [tau] positive, and no jitter draw is
    negative, a fetch makes fewer than [300 / tau + 2] calls. *)
Lemma on_exception_calls_bounded (p : string) (tau : Q) (script : list attempt) :
  (0 < tau)%Q →
  Forall (λ a, (tau <= took a)%Q ∧ (0 <= draw a)%Q) script →
  ∀ tries elapsed,
    (calls (on_exception p script tries elapsed) ≤ 1)%nat
    ∨ (inject_Z (Z.of_nat (calls (on_exception p script tries elapsed))) * tau
       + elapsed < MAX_TIME + 2 * tau)%Q.
Proof.
  intros Htau. induction 1 as [|a rest [Htook Hdraw] Hall IH]; intros tries elapsed.
  - left. simpl. lia.
  - simpl. destruct (fetch_body p (listing a)) as [df|e]; [left; simpl; lia|].
    destruct (retried e); simpl; [|left; lia].
    destruct (Qle_bool MAX_TIME elapsed) eqn:Hbudget; simpl; [left; lia|].
    assert (elapsed < MAX_TIME)%Q as Hlt.
    { destruct (Qlt_le_dec elapsed MAX_TIME) as [|Hge]; [done|].
      apply Qle_bool_iff in Hge. congruence. }
    set (seconds := Qmin (draw a * expo tries) (MAX_TIME - elapsed)).
    assert (0 <= seconds)%Q as Hsec.
    { apply Qmin_glb; [|lra]. apply Qmult_le_0_compat; [done|].
      apply Qlt_le_weak, expo_pos. }
    right.
    destruct (IH (S tries) (elapsed + took a + seconds)%Q) as [Hone|Hmany].
    + set (n := calls (on_exception p rest (S tries) (elapsed + took a + seconds))) in *.
      assert (inject_Z (Z.of_nat (S n)) <= 2)%Q as Hn.
      { change 2%Q with (inject_Z 2). rewrite <- Zle_Qle. lia. }
      assert (inject_Z (Z.of_nat (S n)) * tau <= 2 * tau)%Q
        by (apply Qmult_le_compat_r; lra).
      lra.
    + set (n := calls (on_exception p rest (S tries) (elapsed + took a + seconds))) in *.
      assert (inject_Z (Z.of_nat (S n)) == inject_Z (Z.of_nat n) + 1)%Q as Hs.
      { rewrite Nat2Z.inj_succ. unfold Z.succ. rewrite inject_Z_plus. reflexivity. }
      rewrite Hs. lra.
Qed.

(** The retries of [fetch_aggs_month] are bounded by time: when every
    call lasts at least [tau] seconds, the number of calls times [tau] stays
    below the 300 seconds of [max_time] plus two calls. *)
Theorem fetch_aggs_month_calls_bounded (p : string) (tau : Q) (script : list attempt) :
  (0 < tau)%Q →
  Forall (λ a, (tau <= took a)%Q ∧ (0 <= draw a)%Q) script →
  (inject_Z (Z.of_nat (calls (fetch_aggs_month p script))) * tau
   < MAX_TIME + 2 * tau)%Q.
Proof.
  intros Htau Hall. unfold fetch_aggs_month.
  destruct (on_exception_calls_bounded p tau script Htau Hall 0%nat 0%Q) as [Hone|Hmany].
  - set (n := calls (on_exception p script 0 0)) in *.
    assert (inject_Z (Z.of_nat n) <= 1)%Q as Hn.
    { change 1%Q with (inject_Z 1). rewrite <- Zle_Qle. lia. }
    assert (inject_Z (Z.of_nat n) * tau <= 1 * tau)%Q
      by (apply Qmult_le_compat_r; lra).
    unfold MAX_TIME. lra.
  - lra.
Qed.

End FetchMore.

Lemma on_exception_calls_witness :
  let script := [FX.mkAttempt (Raise ConnectionError) 1 (1 # 2);
                 FX.mkAttempt (Ok [agg 60000]) 1 (1 # 2)] in
  FX.returned (FX.on_exception EURUSD script 0 0)
    = Ok [FX.row_of_agg EURUSD (agg 60000)]
  ∧ FX.calls (FX.on_exception EURUSD script 0 0)
    = S (length (FX.sleeps (FX.on_exception EURUSD script 0 0))).
Proof.
  intros script.
  pose proof (on_exception_calls EURUSD script 0%nat 0%Q) as H. cbv zeta in H.
  destruct H as (_ & _ & H).
  assert (FX.returned (FX.on_exception EURUSD script 0 0)
          = Ok [FX.row_of_agg EURUSD (agg 60000)]) as Hret by reflexivity.
  split; [exact Hret|]. exact (proj1 (H _ Hret)).
Defined.

Lemma fetch_aggs_month_calls_bounded_witness :
  (inject_Z (Z.of_nat (FX.calls (FX.fetch_aggs_month EURUSD
      [FX.mkAttempt (Raise ConnectionError) 1 (1 # 2);
       FX.mkAttempt (Raise (HTTPError 503)) 2 (1 # 3);
       FX.mkAttempt (Ok [agg 60000]) 1 (1 # 2)]))) * 1
   < FX.MAX_TIME + 2 * 1)%Q.
Proof.
  apply (fetch_aggs_month_calls_bounded EURUSD 1).
  - reflexivity.
  - repeat constructor; simpl; discriminate.
Defined.

(** ** The main loop of the FX loader *)

Section FXLoop.

Import FX FXMain.

Lemma digit_is_no_dash z : Ascii.eqb (ascii_of_digit z) "-" = false.
Proof.
  unfold ascii_of_digit.
  assert (0 <= z mod 10 < 10) as Hr by (apply Z.mod_pos_bound; lia).
  set (k := z mod 10) in *. clearbody k.
  assert (k = 0 ∨ k = 1 ∨ k = 2 ∨ k = 3 ∨ k = 4 ∨ k = 5 ∨ k = 6 ∨ k = 7
          ∨ k = 8 ∨ k = 9) as Hk by lia.
  repeat (destruct Hk as [->|Hk]); try subst k; reflexivity.
Qed.

Lemma split_dash_strftime d :
  split_dash (strftime d) = [pad4 (year d); pad2 (month d); pad2 (day d)].
Proof.
  unfold strftime, pad4, pad2. simpl. by rewrite !digit_is_no_dash.
Qed.

Lemma int_pad4 z : 0 <= z <= 9999 → int (pad4 z) = Ok z.
Proof.
  intros Hz. unfold int, pad4. simpl. rewrite !digit_round_trip. simpl.
  f_equal. Z.div_mod_to_equations. lia.
Qed.

Lemma int_pad2 z : 0 <= z <= 99 → int (pad2 z) = Ok z.
Proof.
  intros Hz. unfold int, pad2. simpl. rewrite !digit_round_trip. simpl.
  f_equal. Z.div_mod_to_equations. lia.
Qed.

Context (world : string → chunk → list attempt) (p : string).

(** The loop over a list of chunks is the loop over its first part
    followed, if that finishes, by the loop over the rest. *)
Lemma pull_chunks_app pre post :
  ∀ fs total,
    pull_chunks world p (pre ++ post) fs total
    = match pull_chunks world p pre fs total with
      | (fs1, total1, Finished) => pull_chunks world p post fs1 total1
      | (fs1, total1, stopped) => (fs1, total1, stopped)
      end.
Proof.
  induction pre as [|[s e] pre IH]; intros fs total; simpl; [done|].
  destruct (split_dash s) as [|y [|m words]]; [done..|].
  destruct (returned (fetch_aggs_month p (world p (s, e)))) as [df|x]; [|done].
  destruct (int y) as [yy|x]; [|done].
  destruct (int m) as [mm|x]; [|done].
  apply IH.
Qed.

(** One step of the loop on a chunk of valid dates whose fetch returns. *)
Lemma pull_chunks_step c rest fs total df :
  valid_date c.1 = true →
  returned (fetch_aggs_month p (world p (chunk_text c))) = Ok df →
  pull_chunks world p (chunk_text c :: rest) fs total
  = pull_chunks world p rest (save_month_parquet df p (year c.1) (month c.1) fs)
                (total + Z.of_nat (length df)).
Proof.
  intros (Hy & Hm & _)%valid_date_spec Hdf. unfold MINYEAR, MAXYEAR in Hy.
  destruct c as [a b]. unfold chunk_text in *. cbn [fst snd] in *.
  cbn [pull_chunks]. rewrite split_dash_strftime, Hdf.
  by rewrite int_pad4, int_pad2 by lia.
Qed.

Lemma months_from_later k ds :
  months_from k ds → ∀ c, c ∈ ds → k <= month_index c.1.
Proof.
  revert k. induction ds as [|[a b] ds IH]; intros k; simpl.
  - intros _ c Hc. by apply not_elem_of_nil in Hc.
  - intros (Ha & _ & Hrest) c [->|Hin]%elem_of_cons; simpl; [lia|].
    specialize (IH _ Hrest c Hin). lia.
Qed.

Lemma pull_chunks_months ds :
  ∀ k fs total,
    Forall (λ c, valid_date c.1 = true) ds →
    months_from k ds →
    (∀ c, c ∈ ds →
       ∃ df, returned (fetch_aggs_month p (world p (chunk_text c))) = Ok df) →
    ∃ fs',
      pull_chunks world p (map chunk_text ds) fs total
      = (fs', total + rows_fetched world p ds, Finished)
      ∧ (∀ c df, c ∈ ds →
           returned (fetch_aggs_month p (world p (chunk_text c))) = Ok df →
           fs' !! (p, year c.1, month c.1)
           = match df with
             | [] => fs !! (p, year c.1, month c.1)
             | _ :: _ => Some df
             end)
      ∧ (∀ q y m, q ≠ p ∨ 12 * y + m < k ∨ ¬ (1 <= m <= 12) →
           fs' !! (q, y, m) = fs !! (q, y, m)).
Proof.
  induction ds as [|[a b] ds IH]; intros k fs total Hvalid Hmonths Hfetch.
  - exists fs. simpl. split_and!; [by rewrite Z.add_0_r| |done].
    intros c df Hc. by apply not_elem_of_nil in Hc.
  - apply Forall_cons in Hvalid as [Ha Hvalid].
    destruct Hmonths as (Hka & _ & Hmonths). unfold month_index in Hka.
    destruct (Hfetch (a, b)) as [df Hdf]; [by left|].
    pose proof Ha as (_ & Ham & _)%valid_date_spec. simpl in Ha, Ham, Hka.
    destruct (IH (k + 1) (save_month_parquet df p (year a) (month a) fs)
                 (total + Z.of_nat (length df)) Hvalid Hmonths)
      as (fs' & Hrun & Hfiles & Hother).
    { intros c Hc. apply Hfetch. by right. }
    assert (∀ q y m, (q, y, m) ≠ (p, year a, month a) →
              save_month_parquet df p (year a) (month a) fs !! (q, y, m)
              = fs !! (q, y, m)) as Hsave.
    { intros q y m Hne. unfold save_month_parquet. destruct df; [done|].
      by rewrite lookup_insert_ne. }
    exists fs'. split_and!.
    + change (map chunk_text ((a, b) :: ds))
        with (chunk_text (a, b) :: map chunk_text ds).
      rewrite (pull_chunks_step (a, b) _ fs total df Ha Hdf). simpl.
      rewrite Hrun, Hdf. f_equal. f_equal. lia.
    + intros c df' [->|Hin]%elem_of_cons Hdf'.
      * assert (df' = df) as -> by congruence. cbn [fst snd].
        rewrite Hother by lia.
        unfold save_month_parquet. destruct df; [done|].
        by rewrite lookup_insert_eq.
      * rewrite (Hfiles c df' Hin Hdf'). destruct df'; [|done].
        apply Hsave. intros [= Hy Hm].
        pose proof (months_from_later _ _ Hmonths c Hin) as Hlater.
        unfold month_index in Hlater. lia.
    + intros q y m Hkey. rewrite Hother by (intuition lia). apply Hsave.
      intros [= -> -> ->]. intuition lia.
Qed.

(** Whatever the chunks and the fetches are, the loop only adds files of
    its own pair and only files with rows: every file is either as it was,
    or it is a file of the pair that holds at least one row. And the count
    of rows never goes down. *)
Theorem pull_chunks_only_adds chunks :
  ∀ fs total,
    let '(fs', total', _) := pull_chunks world p chunks fs total in
    total <= total'
    ∧ ∀ q y m,
        fs' !! (q, y, m) = fs !! (q, y, m)
        ∨ q = p ∧ ∃ df, df ≠ [] ∧ fs' !! (q, y, m) = Some df.
Proof.
  induction chunks as [|[s e] chunks IH]; intros fs total; simpl.
  - split; [lia|]. intros. by left.
  - destruct (split_dash s) as [|y [|m words]];
      try (split; [lia|]; intros; by left).
    destruct (returned (fetch_aggs_month p (world p (s, e)))) as [df|x];
      [|split; [lia|]; intros; by left].
    destruct (int y) as [yy|x]; [|split; [lia|]; intros; by left].
    destruct (int m) as [mm|x]; [|split; [lia|]; intros; by left].
    specialize (IH (save_month_parquet df p yy mm fs) (total + Z.of_nat (length df))).
    destruct (pull_chunks world p chunks (save_month_parquet df p yy mm fs)
                (total + Z.of_nat (length df))) as [[fs' total'] fin].
    destruct IH as [Hle Hfiles].
    split; [lia|]. intros q y' m'.
    destruct (Hfiles q y' m') as [Hsame|Hnew]; [|by right].
    unfold save_month_parquet in Hsame. destruct df as [|row df]; [by left|].
    destruct (decide ((p, yy, mm) = (q, y', m'))) as [Hk|Hk].
    + injection Hk as <- <- <-. right. split; [done|].
      exists (row :: df). split; [done|]. by rewrite Hsame, lookup_insert_eq.
    + left. by rewrite Hsame, lookup_insert_ne.
Qed.

Lemma tiles_valid ds :
  ∀ lo hi, tiles lo ds hi → Forall (λ c, valid_date c.1 = true) ds.
Proof.
  induction ds as [|[a b] ds IH]; intros lo hi; simpl; [by constructor|].
  intros (Ha & _ & _ & _ & Hrest). constructor; [done|]. by eapply IH.
Qed.

Lemma month_chunks_structure start_date end_date s e :
  strptime start_date = Ok s →
  strptime end_date = Ok e →
  toordinal s <= toordinal e →
  12 * year e + month e < 12 * MAXYEAR + 12 →
  ∃ ds, month_chunks start_date end_date = (map chunk_text ds, StopIteration)
        ∧ tiles (toordinal s) ds (toordinal e)
        ∧ months_from (month_index s) ds.
Proof.
  intros Hs He Hle Hmax. unfold month_chunks. rewrite Hs, He.
  apply strptime_valid in Hs, He.
  pose proof (valid_date_spec s) as [Hss _]. specialize (Hss Hs).
  destruct Hss as (Hsy & Hsm & Hsd).
  pose proof (days_in_month_pos (year s) (month s) Hsm) as Hpos.
  assert (valid_date (mkdate (year s) (month s) 1) = true) as Hfirst.
  { apply valid_date_spec. unfold wf_date. simpl. lia. }
  assert (toordinal (mkdate (year s) (month s) 1) = toordinal s - day s + 1) as Hord.
  { unfold toordinal, ymd2ord. simpl. lia. }
  destruct (month_loop_months (month_fuel s e) s e Hs He Hmax
              (mkdate (year s) (month s) 1)) as (ds & Hrun & Htiles & Hms & _);
    simpl; try done; try lia.
  exists ds. split_and!; try done.
  replace (Z.max (toordinal (mkdate (year s) (month s) 1)) (toordinal s))
    with (toordinal s) in Htiles by lia.
  exact Htiles.
Qed.


(** An exception that leaves a fetch ends the loop there: the result is
    what the months before it have made, with that exception. *)
Theorem pull_chunks_stops_at_failure (pre post : list chunk)
    (c : datetime * datetime) (fs fs1 : gmap (string * Z * Z) (list Row))
    (total total1 : Z) (x : exn) :
  pull_chunks world p pre fs total = (fs1, total1, Finished) →
  returned (fetch_aggs_month p (world p (chunk_text c))) = Raise x →
  pull_chunks world p (pre ++ chunk_text c :: post) fs total
  = (fs1, total1, Raised x).
Proof.
  intros Hpre Hx. rewrite pull_chunks_app, Hpre.
  destruct c as [a b]. unfold chunk_text in *. cbn [fst snd] in *.
  cbn [pull_chunks]. by rewrite split_dash_strftime, Hx.
Qed.

End FXLoop.


(** The pull of the sample, run: three rows, a file for January 2024 and
    none for February. *)
Example pull_pair_sample :
  ∃ fs', FXMain.pull_pair fx_world EURUSD "2023-12-15" "2024-03-10" ∅
         = (fs', 3, FXMain.Finished)
         ∧ fs' !! (EURUSD, 2024, 1) = Some [FX.row_of_agg EURUSD (agg 60000)]
         ∧ fs' !! (EURUSD, 2024, 2) = None.
Proof. eexists. split_and!; vm_compute; reflexivity. Qed.

Lemma pull_chunks_stops_at_failure_witness :
  FXMain.pull_chunks fx_broken_world EURUSD
    ([chunk_text (mkdate 2024 1 1, mkdate 2024 1 31)]
     ++ chunk_text (mkdate 2024 2 1, mkdate 2024 2 29)
        :: [chunk_text (mkdate 2024 3 1, mkdate 2024 3 10)]) ∅ 0
  = ({[(EURUSD, 2024, 1) := [FX.row_of_agg EURUSD (agg 60000)]]}, 1,
     FXMain.Raised ValueError).
Proof.
  apply (pull_chunks_stops_at_failure fx_broken_world EURUSD).
  - vm_compute. reflexivity.
  - vm_compute. reflexivity.
Defined.

(** ** The ticker list *)

Section TickerList.

Lemma string_compare_lt_trans (a b c : string) :
  String.compare a b = Lt → String.compare b c = Lt → String.compare a c = Lt.
Proof.
  revert b c. induction a as [|x a IH]; intros [|y b] [|z c]; simpl; try done.
  unfold Ascii.compare.
  destruct (N.compare_spec (N_of_ascii x) (N_of_ascii y)) as [Hxy|Hxy|Hxy];
    destruct (N.compare_spec (N_of_ascii y) (N_of_ascii z)) as [Hyz|Hyz|Hyz];
    try done; intros H1 H2.
  - rewrite Hxy, Hyz, N.compare_refl. eauto.
  - rewrite Hxy. by apply N.compare_lt_iff in Hyz as ->.
  - rewrite <- Hyz. by apply N.compare_lt_iff in Hxy as ->.
  - assert (N_of_ascii x < N_of_ascii z)%N as ->%N.compare_lt_iff by lia. done.
Qed.

Lemma string_le_compare a b : string_le a b ↔ a = b ∨ String.compare a b = Lt.
Proof.
  unfold string_le, String.leb.
  destruct (String.compare a b) eqn:E.
  - apply String.compare_eq_iff in E. tauto.
  - tauto.
  - split; [done|]. intros [->|?]; [|done].
    assert (String.compare b b = Eq); [|congruence].
    clear. induction b as [|x b IH]; simpl; [done|].
    unfold Ascii.compare. by rewrite N.compare_refl.
Qed.

Global Instance string_le_total : Total string_le.
Proof. intros a b. apply String.leb_total. Qed.

Global Instance string_le_antisym : AntiSymm (=) string_le.
Proof. intros a b. apply String.leb_antisym. Qed.

Global Instance string_le_trans : Transitive string_le.
Proof.
  intros a b c [->|H1]%string_le_compare [->|H2]%string_le_compare;
    apply string_le_compare; eauto using string_compare_lt_trans.
Qed.

Lemma get_russell3000_tickers_NoDup l : NoDup (get_russell3000_tickers l).
Proof.
  unfold get_russell3000_tickers. rewrite merge_sort_Permutation.
  apply NoDup_remove_dups.
Qed.

Lemma elem_of_get_russell3000_tickers l t :
  t ∈ get_russell3000_tickers l ↔ t ∈ l.
Proof.
  unfold get_russell3000_tickers. rewrite merge_sort_Permutation.
  apply elem_of_remove_dups.
Qed.

(** The list that [get_russell3000_tickers] returns holds every ticker of
    the list in the source and nothing else, each once, in strictly
    ascending order; it is no longer than the list in the source, and it
    is the same for any list with the same tickers, whatever their order
    and however often they are repeated. *)
Theorem get_russell3000_tickers_sorted_distinct (all_tickers : list string) :
  let tickers := get_russell3000_tickers all_tickers in
  NoDup tickers
  ∧ (∀ t, t ∈ tickers ↔ t ∈ all_tickers)
  ∧ StronglySorted (λ a b, string_le a b ∧ a ≠ b) tickers
  ∧ (length tickers ≤ length all_tickers)%nat
  ∧ ∀ other, (∀ t, t ∈ other ↔ t ∈ all_tickers) →
             get_russell3000_tickers other = tickers.
Proof.
  cbv zeta.
  split_and!; auto using get_russell3000_tickers_NoDup,
                         elem_of_get_russell3000_tickers.
  - pose proof (get_russell3000_tickers_NoDup all_tickers) as Hn.
    unfold get_russell3000_tickers in *.
    pose proof (StronglySorted_merge_sort string_le (remove_dups all_tickers)) as Hs.
    induction Hs as [|a l Hl IH Hall]; [constructor|].
    apply NoDup_cons in Hn as [Ha Hn]. constructor; [auto|].
    apply Forall_forall. intros b Hb. split.
    + by eapply Forall_forall in Hall.
    + intros ->. done.
  - unfold get_russell3000_tickers. rewrite merge_sort_Permutation.
    induction all_tickers as [|t l IH]; simpl; [done|]. case_decide; simpl; lia.
  - intros other Hsame.
    apply (Sorted_unique string_le);
      try (unfold get_russell3000_tickers; apply Sorted_merge_sort; apply _).
    apply NoDup_Permutation; auto using get_russell3000_tickers_NoDup.
    intros t. rewrite !elem_of_get_russell3000_tickers. apply Hsame.
Qed.

(** [download_all_data] as the code runs it, over the list that
    [get_russell3000_tickers] returns: when the completed set holds only
    tickers of the list in the source, every ticker of that list whose CSV
    file can be written is completed at the end, repeated in the source or
    not, whatever the service answers. *)
Theorem download_all_data_over_ticker_list (env : Env)
    (all_tickers : list string) (st : State) :
  completed_tickers st ⊆ list_to_set all_tickers →
  ∀ t, t ∈ all_tickers → csv_writable env t = true →
    t ∈ completed_tickers
          (download_all_data env (get_russell3000_tickers all_tickers) st).
Proof.
  intros Hsub t Hin Hw.
  apply download_all_data_marks_all; auto using get_russell3000_tickers_NoDup.
  - intros x Hx. apply Hsub in Hx.
    rewrite elem_of_list_to_set in *. by apply elem_of_get_russell3000_tickers.
  - by apply elem_of_get_russell3000_tickers.
Qed.

End TickerList.

Lemma get_russell3000_tickers_sorted_distinct_witness :
  get_russell3000_tickers [ABC; MSFT; AAPL; ABC]
  = get_russell3000_tickers [MSFT; AAPL; MSFT; ABC].
Proof.
  pose proof (get_russell3000_tickers_sorted_distinct [MSFT; AAPL; MSFT; ABC]) as H.
  cbv zeta in H. destruct H as (_ & _ & _ & _ & H). apply H.
  intros t. rewrite !elem_of_cons. tauto.
Defined.

Lemma download_all_data_over_ticker_list_witness :
  ABC ∈ completed_tickers
          (download_all_data (writable refusing_server)
             (get_russell3000_tickers [MSFT; AAPL; MSFT; ABC; AAPL]) fresh).
Proof.
  apply (download_all_data_over_ticker_list (writable refusing_server)
           [MSFT; AAPL; MSFT; ABC; AAPL] fresh).
  - apply (bool_decide_unpack _). vm_compute. exact I.
  - apply (bool_decide_unpack _). vm_compute. exact I.
  - reflexivity.
Defined.
